(** * libaskexperts: the Expert agent of the NIP-174 paid question/answer protocol

    A shallow embedding of [src/expert.ts] (class [Expert]) together with the
    data of [src/types.ts] and [src/constants.ts].

    The TypeScript code is asynchronous: every [async] method runs
    synchronously up to its next [await], and is resumed later with the value
    the awaited promise settles to.  Each method is therefore embedded as its
    sequence of synchronous segments; a segment transforms the memory of the
    [Expert] object, emits the calls it makes to the outside world, and either
    finishes or leaves a suspended task behind.  A small machine schedules
    callbacks, timers and resumptions in any order. *)

From Stdlib Require Import ZArith Lia Ascii Floats.SpecFloat.
From stdpp Require Import gmap strings list fin_maps.

Local Open Scope Z_scope.

(** ** Constants ([src/constants.ts]) *)

Definition NOSTR_EVENT_KIND_ASK : Z := 20174.
Definition NOSTR_EVENT_KIND_BID : Z := 20175.
Definition NOSTR_EVENT_KIND_BID_PAYLOAD : Z := 20176.
Definition NOSTR_EVENT_KIND_QUESTION : Z := 20177.
Definition NOSTR_EVENT_KIND_ANSWER : Z := 20178.

(** ** Data ([src/types.ts] and the nostr-tools event types) *)

(** A [Uint8Array]. *)
Definition Bytes := list Byte.byte.

(** A tag is a [string[]]; [tags] is a [string[][]]. *)
Definition Tag := list string.

(** A JavaScript [number] is an IEEE 754 binary64 value: 53 bits of
    precision, exponents below 1024. *)
Definition Number := spec_float.

(** The [number] an integer literal denotes: the nearest binary64 value. *)
Definition number (n : Z) : Number := binary_normalize 53 1024 n 0 false.

(** [x * y] on [number]s, rounded to the nearest binary64 value, ties to
    even. *)
Definition js_mul (x y : Number) : Number := SFmul 53 1024 x y.

(** [x > y] on [number]s; false when either side is [NaN]. *)
Definition js_gt (x y : Number) : bool := SFltb y x.

(** Truthiness of a [number]: neither zero nor [NaN]. *)
Definition truthy_number (x : Number) : bool :=
  match x with
  | S754_zero _ | S754_nan => false
  | _ => true
  end.

(** The integer a [number] is equal to, when it is equal to one. *)
Definition integer_value (x : Number) : option Z :=
  match x with
  | S754_zero _ => Some 0
  | S754_finite s m e =>
      if bool_decide (0 ≤ e) then Some (cond_Zopp s (Zpos m * 2 ^ e))
      else if bool_decide (Zpos m mod 2 ^ (- e) = 0)
           then Some (cond_Zopp s (Zpos m / 2 ^ (- e)))
           else None
  | _ => None
  end.

(** [p * 2^k], and the binary64 value of a positive integer below [2^53]:
    the mantissa is shifted up to 53 bits. *)
Definition shift (p : positive) (k : Z) : positive :=
  match k with
  | Zpos d => Pos.iter xO p d
  | _ => p
  end.

Definition canonical (p : positive) : Number :=
  S754_finite false (shift p (53 - Zpos (digits2_pos p)))
    (Zpos (digits2_pos p) - 53).

(** nostr-tools [UnsignedEvent]. *)
Record UnsignedEvent := mkUnsigned {
  u_kind : Z;
  u_created_at : Z;
  u_pubkey : string;
  u_content : string;
  u_tags : list Tag
}.

(** nostr-tools [Event]: a signed event. *)
Record Event := mkEvent {
  ev_id : string;
  ev_pubkey : string;
  ev_created_at : Z;
  ev_kind : Z;
  ev_tags : list Tag;
  ev_content : string;
  ev_sig : string
}.

Record Ask := mkAsk {
  ask_id : string;
  ask_pubkey : string;
  ask_content : string;
  ask_created_at : Z;
  ask_tags : list Tag
}.

(** [tags?: string[][]] is an optional field. *)
Record Bid := mkBid {
  bid_content : string;
  bid_sats : Number;
  bid_tags : option (list Tag)
}.

Record Question := mkQuestion {
  q_id : string;
  q_content : string;
  q_preimage : string;
  q_tags : list Tag
}.

(** [followup_sats?: number] is an optional field. *)
Record Answer := mkAnswer {
  ans_content : string;
  followup_sats : option Number;
  ans_tags : option (list Tag)
}.

Record QuestionAnswerPair := mkPair {
  question : Question;
  answer : Answer
}.

(** [ActiveBid] objects live on the heap and are shared by reference between
    the registry, the subscription callbacks and the suspended handlers;
    [subscription] and [timeoutId] are the handles returned by
    [pool.subscribeMany] and [setTimeout]. *)
Record ActiveBid := mkActiveBid {
  askEvent : Event;
  bidEvent : Event;
  bidPayloadEvent : Event;
  sessionPubkey : string;
  paymentHash : string;
  timestamp : Z;
  subscription : nat;
  timeoutId : nat;
  bid : Bid;
  history : option (list QuestionAnswerPair);
  contextId : string
}.

(** What [JSON.parse] of a decrypted question yields, as far as the code
    reads it: [content] and [tags]. *)
Record QuestionPayload := mkQuestionPayload {
  qp_content : string;
  qp_tags : list Tag
}.

(** The object literal [{content, tags}] that is serialised into an answer. *)
Record AnswerPayload := mkAnswerPayload {
  ap_content : string;
  ap_tags : list Tag
}.

(** nostr-tools [Filter], restricted to the fields the code sets. *)
Record Filter := mkFilter {
  kinds : list Z;
  since : option Z;
  hash_t : option (list string);
  hash_p : option (list string);
  hash_e : option (list string)
}.

(** The responses of the wallet ([@getalby/sdk] NWC client). *)
Record InvoiceResponse := mkInvoiceResponse {
  invoice : string;
  payment_hash : string
}.

Record LookupResponse := mkLookupResponse {
  settled_at : option Z
}.

(** ** The libraries the code calls

    [nostr-tools], [@noble/hashes] and [JSON] are not part of the repository;
    the model is parametric in them.  Functions that can throw return
    [option]. *)
Class Libs := {
  getPublicKey : Bytes → string;
  getEventHash : UnsignedEvent → string;
  schnorrSign : string → Bytes → string;
  getConversationKey : Bytes → string → option Bytes;
  nip44_encrypt : string → Bytes → Bytes → option string;
  nip44_decrypt : string → Bytes → option string;
  stringifyEvent : Event → string;
  stringifyAnswerPayload : AnswerPayload → string;
  parseQuestionPayload : string → option QuestionPayload;
  hexToBytes : string → option Bytes;
  sha256 : Bytes → Bytes;
  bytesToHex : Bytes → string
}.

(** What the environment hands to one synchronous segment: the clock
    ([Date.now()], milliseconds), the key drawn by [generateSecretKey()] and
    the nonce drawn inside [nip44.encrypt]. *)
Record Env := mkEnv {
  now_ms : Z;
  fresh_sk : Bytes;
  fresh_nonce : Bytes
}.

(** Settlement of an awaited promise. *)
Inductive Result (A : Type) :=
  | Resolved (a : A)
  | Rejected.
Arguments Resolved {A} a.
Arguments Rejected {A}.

(** ** Memory of the program *)

(** The [onevent] closures handed to [pool.subscribeMany]. Each records the
    variables the closure captures. *)
Inductive SubCallback :=
  | OnAsk
  | OnQuestion (bidPayloadId : string) (timeout : nat)
  | OnFollowup (answerId : string) (activeBid : nat) (timeout : nat).

Record Sub := mkSub {
  sub_relays : list string;
  sub_filters : list Filter;
  sub_onevent : SubCallback;
  sub_closed : bool
}.

Inductive TimerState := Pending | Cleared | Fired.

(** A [setTimeout] entry. Both timer closures of the source have the same
    shape: close one subscription and delete one registry key. *)
Record Timer := mkTimer {
  t_delay_ms : Z;
  t_sub : nat;
  t_key : string;
  t_state : TimerState
}.

(** The fields of the [Expert] object, the heap of [ActiveBid] objects, the
    subscriptions of the pool and the timers of the event loop. *)
Record State := mkState {
  expertPrivkey : Bytes;
  askRelays : list string;
  questionRelays : list string;
  hashtags : list string;
  bidTimeout : Z;
  heap : list ActiveBid;
  activeBids : gmap string nat;
  subscriptions : list nat;
  subs : list Sub;
  timers : list Timer
}.

(** Calls that leave the program. *)
Inductive Effect :=
  | CallOnAsk (ask : Ask)
  | CallOnQuestion (ask : Ask) (b : Bid) (q : Question)
      (h : option (list QuestionAnswerPair))
  | CallMakeInvoice (amount : Number) (description : string)
  | CallLookupInvoice (hash : string)
  | Publish (relays : list string) (ev : Event)
  | PoolClose (relays : list string).

(** Handlers suspended at an [await], with the locals still in scope. *)
Inductive Task :=
  | AwaitOnAsk (askEv : Event)
  | AwaitBidInvoice (askEv : Event) (b : Bid) (bidPrivateKey : Bytes)
  | AwaitBidPublish (askEv : Event) (b : Bid)
      (signedBidEvent signedBidPayload : Event) (hash : string)
  | AwaitLookup (questionEvent : Event) (activeBid : nat)
      (questionPayload : QuestionPayload) (preimage : string)
  | AwaitAnswer (questionEvent : Event) (activeBid : nat) (q : Question)
  | AwaitFollowupInvoice (questionEvent : Event) (activeBid : nat)
      (q : Question) (a : Answer)
  | AwaitAnswerPublish (questionEvent : Event) (activeBid : nat)
      (q : Question) (a : Answer) (inv hash : option string)
      (signedAnswerEvent : Event).

(** The outcome of a synchronous segment. *)
Definition Outcome : Type := State * list Effect * option Task.

(** ** State updates *)

Definition set_subs (f : list Sub → list Sub) (s : State) : State :=
  mkState (expertPrivkey s) (askRelays s) (questionRelays s) (hashtags s)
    (bidTimeout s) (heap s) (activeBids s) (subscriptions s) (f (subs s))
    (timers s).

Definition set_timers (f : list Timer → list Timer) (s : State) : State :=
  mkState (expertPrivkey s) (askRelays s) (questionRelays s) (hashtags s)
    (bidTimeout s) (heap s) (activeBids s) (subscriptions s) (subs s)
    (f (timers s)).

Definition set_heap (f : list ActiveBid → list ActiveBid) (s : State) : State :=
  mkState (expertPrivkey s) (askRelays s) (questionRelays s) (hashtags s)
    (bidTimeout s) (f (heap s)) (activeBids s) (subscriptions s) (subs s)
    (timers s).

Definition set_activeBids (f : gmap string nat → gmap string nat) (s : State)
  : State :=
  mkState (expertPrivkey s) (askRelays s) (questionRelays s) (hashtags s)
    (bidTimeout s) (heap s) (f (activeBids s)) (subscriptions s) (subs s)
    (timers s).

Definition set_subscriptions (f : list nat → list nat) (s : State) : State :=
  mkState (expertPrivkey s) (askRelays s) (questionRelays s) (hashtags s)
    (bidTimeout s) (heap s) (activeBids s) (f (subscriptions s)) (subs s)
    (timers s).

(** [subscription.close()]: idempotent, and silent on an unknown handle. *)
Definition close_sub (sid : nat) (s : State) : State :=
  set_subs (λ l, match l !! sid with
                 | Some sb => <[sid := mkSub (sub_relays sb) (sub_filters sb)
                                         (sub_onevent sb) true]> l
                 | None => l
                 end) s.

(** [clearTimeout(id)]: cancels a pending timer, nothing otherwise. *)
Definition clearTimeout (tid : nat) (s : State) : State :=
  set_timers (λ l, match l !! tid with
                   | Some t =>
                       match t_state t with
                       | Pending => <[tid := mkTimer (t_delay_ms t) (t_sub t)
                                               (t_key t) Cleared]> l
                       | _ => l
                       end
                   | None => l
                   end) s.

(** [pool.subscribeMany(relays, filters, {onevent})]: the new handle is the
    index of the subscription. *)
Definition subscribeMany (relays : list string) (filters : list Filter)
    (cb : SubCallback) (s : State) : State * nat :=
  (set_subs (λ l, l ++ [mkSub relays filters cb false]) s, length (subs s)).

(** [setTimeout(cb, ms)] for a callback that closes [sid] and deletes [key]. *)
Definition setTimeout (ms : Z) (sid : nat) (key : string) (s : State)
  : State * nat :=
  (set_timers (λ l, l ++ [mkTimer ms sid key Pending]) s, length (timers s)).

(** ** JavaScript idioms *)

(** [tags.find((tag) => tag[0] === name)]: the first tag with that name. *)
Definition find_tag (name : string) (tags : list Tag) : option Tag :=
  List.find (λ tag, bool_decide (tag !! 0%nat = Some name)) tags.

(** Truthiness of a [string | undefined]: defined and not empty. *)
Definition truthy_string (o : option string) : bool :=
  match o with
  | Some v => negb (bool_decide (v = ""%string))
  | None => false
  end.

(** [x && x > 0] for a [number | undefined]. *)
Definition positive_number (o : option Number) : bool :=
  match o with
  | Some x => truthy_number x && js_gt x (number 0)
  | None => false
  end.

(** [results.filter((r) => r.status === "fulfilled").length] over the
    outcome of [Promise.allSettled]; [true] stands for a fulfilled promise. *)
Definition successful (results : list bool) : nat :=
  length (filter (λ r, r = true) results).

Definition failed (results : list bool) : nat :=
  length (filter (λ r, r = false) results).

(** [Math.floor(Date.now() / 1000)]. *)
Definition unix_seconds (e : Env) : Z := now_ms e / 1000.

Section Expert.
Context `{Libs}.

(** [this.expertPubkey], set once by the constructor. *)
Definition expertPubkey (s : State) : string := getPublicKey (expertPrivkey s).

(** The constructor: an [Expert] with no conversation and no subscription
    ([bidTimeout] defaults to 600 when not given). *)
Definition constructor (privkey : Bytes) (askR questionR tags : list string)
    (timeout : option Z) : State :=
  mkState privkey askR questionR tags (default 600 timeout) [] ∅ [] [] [].

(** Modelled from the spec: nostr-tools [finalizeEvent] is not in the
    repository. Section 4.1 (build + sign) and section 6 (canonical id and
    signature): the signed event keeps kind, created_at, tags and content,
    carries the public key of the signing secret, the hash of the canonical
    serialisation as id, and a signature over that id. *)
Definition finalizeEvent (t : UnsignedEvent) (sk : Bytes) : Event :=
  let pk := getPublicKey sk in
  let i := getEventHash (mkUnsigned (u_kind t) (u_created_at t) pk
                           (u_content t) (u_tags t)) in
  mkEvent i pk (u_created_at t) (u_kind t) (u_tags t) (u_content t)
    (schnorrSign i sk).

(** *** [start] *)

Definition hashtagFilter (s : State) (e : Env) : Filter :=
  mkFilter [NOSTR_EVENT_KIND_ASK] (Some (unix_seconds e - 10))
    (if bool_decide (0 < length (hashtags s))%nat then Some (hashtags s)
     else None)
    None None.

Definition pubkeyFilter (s : State) (e : Env) : Filter :=
  mkFilter [NOSTR_EVENT_KIND_ASK] (Some (unix_seconds e - 10))
    None (Some [expertPubkey s]) None.

Definition start (e : Env) (s : State) : State :=
  let '(s1, hashtagSub) :=
    subscribeMany (askRelays s) [hashtagFilter s e] OnAsk s in
  let '(s2, pubkeySub) :=
    subscribeMany (askRelays s) [pubkeyFilter s e] OnAsk s1 in
  set_subscriptions (λ l, (l ++ [hashtagSub]) ++ [pubkeySub]) s2.

(** *** [setupQuestionSubscription] *)

Definition questionFilter (contextKey : string) : Filter :=
  mkFilter [NOSTR_EVENT_KIND_QUESTION] None None None (Some [contextKey]).

Definition setupQuestionSubscription (askEv bidEv bidPayloadEv : Event)
    (hash : string) (b : Bid) (e : Env) (s : State) : State :=
  let key := ev_id bidPayloadEv in
  let '(s1, sub) :=
    subscribeMany (questionRelays s) [questionFilter key]
      (OnQuestion key (length (timers s))) s in
  let '(s2, timeout) := setTimeout (bidTimeout s1 * 1000) sub key s1 in
  let ref := length (heap s2) in
  let obj := mkActiveBid askEv bidEv bidPayloadEv (ev_pubkey askEv) hash
               (unix_seconds e) sub timeout b (Some []) key in
  set_activeBids (λ m, <[key := ref]> m) (set_heap (λ h, h ++ [obj]) s2).

(** *** [handleAskEvent], one definition per synchronous segment *)

Definition ask_of_event (ev : Event) : Ask :=
  mkAsk (ev_id ev) (ev_pubkey ev) (ev_content ev) (ev_created_at ev)
    (ev_tags ev).

(** From the entry to [await this.onAskCallback(ask)]. *)
Definition handleAskEvent (askEv : Event) (s : State) : Outcome :=
  if bool_decide (ev_kind askEv ≠ NOSTR_EVENT_KIND_ASK) then (s, [], None)
  else (s, [CallOnAsk (ask_of_event askEv)], Some (AwaitOnAsk askEv)).

(** From the handler's decision to [await this.nwcClient.makeInvoice]. *)
Definition handleAskEvent_decided (askEv : Event) (r : Result (option Bid))
    (e : Env) (s : State) : Outcome :=
  match r with
  | Rejected => (s, [], None)
  | Resolved None => (s, [], None)
  | Resolved (Some b) =>
      let bidPrivateKey := fresh_sk e in
      (s,
       [CallMakeInvoice (js_mul (bid_sats b) (number 1000))
          ("Bid for ask " +:+ ev_id askEv)],
       Some (AwaitBidInvoice askEv b bidPrivateKey))
  end.

Definition bidPayload (askEv : Event) (b : Bid) (inv : string) (e : Env)
    (s : State) : UnsignedEvent :=
  mkUnsigned NOSTR_EVENT_KIND_BID_PAYLOAD (unix_seconds e) (expertPubkey s)
    (bid_content b)
    ((["invoice"; inv] : Tag)
       :: (map (λ relay, (["relay"; relay] : Tag)) (questionRelays s)
           ++ default [] (bid_tags b))).

Definition bidEventTemplate (askEv : Event) (bidPrivateKey : Bytes)
    (encryptedContent : string) (e : Env) : UnsignedEvent :=
  mkUnsigned NOSTR_EVENT_KIND_BID (unix_seconds e)
    (getPublicKey bidPrivateKey) encryptedContent [["e"; ev_id askEv] : Tag].

(** From the minted invoice to [await Promise.allSettled(publishPromises)]. *)
Definition handleAskEvent_invoiced (askEv : Event) (b : Bid)
    (bidPrivateKey : Bytes) (r : Result InvoiceResponse) (e : Env) (s : State)
  : Outcome :=
  match r with
  | Rejected => (s, [], None)
  | Resolved resp =>
      let signedBidPayload :=
        finalizeEvent (bidPayload askEv b (invoice resp) e s)
          (expertPrivkey s) in
      match getConversationKey bidPrivateKey (ev_pubkey askEv) with
      | None => (s, [], None)
      | Some conversationKey =>
          match nip44_encrypt (stringifyEvent signedBidPayload)
                  conversationKey (fresh_nonce e) with
          | None => (s, [], None)
          | Some encryptedContent =>
              let signedBidEvent :=
                finalizeEvent
                  (bidEventTemplate askEv bidPrivateKey encryptedContent e)
                  bidPrivateKey in
              (s, [Publish (askRelays s) signedBidEvent],
               Some (AwaitBidPublish askEv b signedBidEvent signedBidPayload
                       (payment_hash resp)))
          end
      end
  end.

(** From the settled publication to the end of [handleAskEvent]. *)
Definition handleAskEvent_published (askEv : Event) (b : Bid)
    (signedBidEvent signedBidPayload : Event) (hash : string)
    (results : list bool) (e : Env) (s : State) : Outcome :=
  if bool_decide (0 < successful results)%nat then
    (setupQuestionSubscription askEv signedBidEvent signedBidPayload hash b
       e s, [], None)
  else (s, [], None).

(** *** [setupFollowupSubscription]

    The [ActiveBid] object is updated in place and stored again under the
    answer id. *)
Definition setupFollowupSubscription (answerId : string) (activeBid : nat)
    (s : State) : State :=
  let '(s1, sub) :=
    subscribeMany (questionRelays s) [questionFilter answerId]
      (OnFollowup answerId activeBid (length (timers s))) s in
  let '(s2, timeout) := setTimeout (bidTimeout s1 * 1000) sub answerId s1 in
  let s3 :=
    set_heap (λ h,
      match h !! activeBid with
      | Some ab =>
          <[activeBid := mkActiveBid (askEvent ab) (bidEvent ab)
              (bidPayloadEvent ab) (sessionPubkey ab) (paymentHash ab)
              (timestamp ab) sub timeout (bid ab) (history ab) answerId]> h
      | None => h
      end) s2 in
  set_activeBids (λ m, <[answerId := activeBid]> m) s3.

(** *** [handleQuestionEvent], one definition per synchronous segment *)

(** [questionPayload.tags.find((tag) => tag[0] === "preimage")?.[1]] *)
Definition extract_preimage (p : QuestionPayload) : option string :=
  match find_tag "preimage" (qp_tags p) with
  | Some tag => tag !! 1%nat
  | None => None
  end.

(** [bytesToHex(sha256(hexToBytes(preimage))) !== activeBid.paymentHash];
    [hexToBytes] throws on a string that is not hexadecimal. *)
Definition preimage_matches (preimage hash : string) : option bool :=
  match hexToBytes preimage with
  | Some bytes => Some (bool_decide (bytesToHex (sha256 bytes) = hash))
  | None => None
  end.

(** The check on the [e] tag: only the first [e] tag is read. *)
Definition tags_context (questionEvent : Event) (ab : ActiveBid) : bool :=
  match find_tag "e" (ev_tags questionEvent) with
  | Some eTag => bool_decide (eTag !! 1%nat = Some (contextId ab))
  | None => false
  end.

(** The decrypted and parsed content of a question ([None]: one of
    [getConversationKey], [nip44.decrypt], [JSON.parse] or the access to
    [questionPayload.tags] throws). *)
Definition decrypt_question (questionEvent : Event) (ab : ActiveBid)
    (s : State) : option QuestionPayload :=
  match getConversationKey (expertPrivkey s) (sessionPubkey ab) with
  | Some conversationKey =>
      match nip44_decrypt (ev_content questionEvent) conversationKey with
      | Some decryptedContent => parseQuestionPayload decryptedContent
      | None => None
      end
  | None => None
  end.

(** From the entry to [await this.nwcClient.lookupInvoice]. *)
Definition handleQuestionEvent (questionEvent : Event) (activeBid : nat)
    (s : State) : Outcome :=
  match heap s !! activeBid with
  | None => (s, [], None)
  | Some ab =>
      if bool_decide (ev_kind questionEvent ≠ NOSTR_EVENT_KIND_QUESTION)
      then (s, [], None)
      else if negb (tags_context questionEvent ab) then (s, [], None)
      else
        match decrypt_question questionEvent ab s with
        | None => (s, [], None)
        | Some questionPayload =>
            match extract_preimage questionPayload with
            | None => (s, [], None)
            | Some preimage =>
                if negb (truthy_string (Some preimage)) then (s, [], None)
                else
                  match preimage_matches preimage (paymentHash ab) with
                  | Some true =>
                      (s, [CallLookupInvoice (paymentHash ab)],
                       Some (AwaitLookup questionEvent activeBid
                               questionPayload preimage))
                  | _ => (s, [], None)
                  end
            end
        end
  end.

(** [!invoiceStatus.settled_at || invoiceStatus.settled_at <= 0] *)
Definition unsettled (r : LookupResponse) : bool :=
  match settled_at r with
  | None => true
  | Some t => (t =? 0) || (t <=? 0)
  end.

(** From the invoice status to [await this.onQuestionCallback]. The handler
    is given [activeBid.history] as it is at the time of the call. *)
Definition handleQuestionEvent_looked_up (questionEvent : Event)
    (activeBid : nat) (questionPayload : QuestionPayload) (preimage : string)
    (r : Result LookupResponse) (s : State) : Outcome :=
  match r, heap s !! activeBid with
  | Resolved invoiceStatus, Some ab =>
      if unsettled invoiceStatus then (s, [], None)
      else
        let q := mkQuestion (ev_id questionEvent) (qp_content questionPayload)
                   preimage (qp_tags questionPayload) in
        (s, [CallOnQuestion (ask_of_event (askEvent ab)) (bid ab) q
               (history ab)],
         Some (AwaitAnswer questionEvent activeBid q))
  | _, _ => (s, [], None)
  end.

Definition answerPayload (a : Answer) (inv : option string) : AnswerPayload :=
  mkAnswerPayload (ans_content a)
    (default [] (ans_tags a)
       ++ (if truthy_string inv
           then [(["invoice"; default ""%string inv] : Tag)] else [])).

Definition answerEvent (questionEvent : Event) (answerPrivateKey : Bytes)
    (encryptedAnswerContent : string) (e : Env) : UnsignedEvent :=
  mkUnsigned NOSTR_EVENT_KIND_ANSWER (unix_seconds e)
    (getPublicKey answerPrivateKey) encryptedAnswerContent
    [["e"; ev_id questionEvent] : Tag].

(** From the answer payload to [await Promise.allSettled(publishPromises)];
    [inv] and [hash] are the locals [invoice] and [paymentHash]. *)
Definition publish_answer (questionEvent : Event) (activeBid : nat)
    (q : Question) (a : Answer) (inv hash : option string) (e : Env)
    (s : State) : Outcome :=
  match heap s !! activeBid with
  | None => (s, [], None)
  | Some ab =>
      match getConversationKey (expertPrivkey s) (sessionPubkey ab) with
      | None => (s, [], None)
      | Some answerConversationKey =>
          match nip44_encrypt (stringifyAnswerPayload (answerPayload a inv))
                  answerConversationKey (fresh_nonce e) with
          | None => (s, [], None)
          | Some encryptedAnswerContent =>
              let answerPrivateKey := fresh_sk e in
              let signedAnswerEvent :=
                finalizeEvent
                  (answerEvent questionEvent answerPrivateKey
                     encryptedAnswerContent e)
                  answerPrivateKey in
              (s, [Publish (questionRelays s) signedAnswerEvent],
               Some (AwaitAnswerPublish questionEvent activeBid q a inv hash
                       signedAnswerEvent))
          end
      end
  end.

(** From the handler's answer to the next [await]: the follow-up invoice
    when one is asked for, the publication otherwise. *)
Definition handleQuestionEvent_answered (questionEvent : Event)
    (activeBid : nat) (q : Question) (r : Result Answer) (e : Env) (s : State)
  : Outcome :=
  match r, heap s !! activeBid with
  | Resolved a, Some ab =>
      if positive_number (followup_sats a) then
        (s,
         [CallMakeInvoice
            (js_mul (default (number 0) (followup_sats a)) (number 1000))
            ("Followup question for " +:+ contextId ab)],
         Some (AwaitFollowupInvoice questionEvent activeBid q a))
      else publish_answer questionEvent activeBid q a None None e s
  | _, _ => (s, [], None)
  end.

(** From the follow-up invoice to the publication. *)
Definition handleQuestionEvent_invoiced (questionEvent : Event)
    (activeBid : nat) (q : Question) (a : Answer)
    (r : Result InvoiceResponse) (e : Env) (s : State) : Outcome :=
  match r with
  | Resolved invoiceResponse =>
      publish_answer questionEvent activeBid q a
        (Some (invoice invoiceResponse)) (Some (payment_hash invoiceResponse))
        e s
  | Rejected => (s, [], None)
  end.

(** [activeBid.history.push({question, answer})], creating the array first
    when the field is missing. *)
Definition push_history (q : Question) (a : Answer) (ab : ActiveBid)
  : ActiveBid :=
  mkActiveBid (askEvent ab) (bidEvent ab) (bidPayloadEvent ab)
    (sessionPubkey ab) (paymentHash ab) (timestamp ab) (subscription ab)
    (timeoutId ab) (bid ab) (Some (default [] (history ab) ++ [mkPair q a]))
    (contextId ab).

(** [activeBid.paymentHash = paymentHash!] *)
Definition set_paymentHash (hash : string) (ab : ActiveBid) : ActiveBid :=
  mkActiveBid (askEvent ab) (bidEvent ab) (bidPayloadEvent ab)
    (sessionPubkey ab) hash (timestamp ab) (subscription ab) (timeoutId ab)
    (bid ab) (history ab) (contextId ab).

Definition update_object (activeBid : nat) (f : ActiveBid → ActiveBid)
    (s : State) : State :=
  set_heap (λ h, match h !! activeBid with
                 | Some ab => <[activeBid := f ab]> h
                 | None => h
                 end) s.

(** From the settled publication to the end of [handleQuestionEvent]. The
    counts [successful] and [failed] of [results] are computed for the log
    line only. *)
Definition handleQuestionEvent_published (questionEvent : Event)
    (activeBid : nat) (q : Question) (a : Answer) (inv hash : option string)
    (signedAnswerEvent : Event) (results : list bool) (s : State) : Outcome :=
  let s1 := update_object activeBid (push_history q a) s in
  if truthy_string inv && positive_number (followup_sats a) then
    let s2 := update_object activeBid
                (set_paymentHash (default ""%string hash)) s1 in
    (setupFollowupSubscription (ev_id signedAnswerEvent) activeBid s2,
     [], None)
  else (s1, [], None).

(** *** The closures: subscription callbacks and timers *)

(** [onevent] of [setupQuestionSubscription], running on the subscription
    with handle [sub]. *)
Definition onevent_question (bidPayloadId : string) (timeout sub : nat)
    (questionEvent : Event) (s : State) : Outcome :=
  match activeBids s !! bidPayloadId with
  | None => (s, [], None)
  | Some activeBid =>
      let s1 := close_sub sub s in
      let s2 := clearTimeout timeout s1 in
      let s3 := set_activeBids (λ m, delete bidPayloadId m) s2 in
      handleQuestionEvent questionEvent activeBid s3
  end.

(** [onevent] of [setupFollowupSubscription]. *)
Definition onevent_followup (answerId : string) (activeBid timeout sub : nat)
    (questionEvent : Event) (s : State) : Outcome :=
  let s1 := close_sub sub s in
  let s2 := clearTimeout timeout s1 in
  let s3 := set_activeBids (λ m, delete answerId m) s2 in
  handleQuestionEvent questionEvent activeBid s3.

(** The pool hands an event to the [onevent] closure of a subscription.
    Nothing in the program keeps the pool from running the closure of a
    subscription whose [close] it has already asked for (an event that was
    on its way, a relay that was still connecting); the closure of
    [setupQuestionSubscription] provides for it by looking the registry
    entry up first. The machine therefore delivers to any subscription,
    closed or not. *)
Definition onevent (sub : nat) (ev : Event) (s : State) : Outcome :=
  match subs s !! sub with
  | Some sb =>
      match sub_onevent sb with
      | OnAsk => handleAskEvent ev s
      | OnQuestion key timeout => onevent_question key timeout sub ev s
      | OnFollowup answerId activeBid timeout =>
          onevent_followup answerId activeBid timeout sub ev s
      end
  | None => (s, [], None)
  end.

(** A timer fires: only a pending timer runs its closure, once. *)
Definition fire_timer (tid : nat) (s : State) : State :=
  match timers s !! tid with
  | Some t =>
      match t_state t with
      | Pending =>
          let s1 := set_timers (λ l, <[tid := mkTimer (t_delay_ms t) (t_sub t)
                                             (t_key t) Fired]> l) s in
          let s2 := close_sub (t_sub t) s1 in
          set_activeBids (λ m, delete (t_key t) m) s2
      | _ => s
      end
  | None => s
  end.

(** *** [Symbol.dispose] *)

Definition dispose (s : State) : State * list Effect :=
  let s1 := foldr close_sub s (subscriptions s) in
  let s2 := set_subscriptions (λ _, []) s1 in
  let release (bidInfo : ActiveBid) (st : State) : State :=
    clearTimeout (timeoutId bidInfo) (close_sub (subscription bidInfo) st) in
  let objects :=
    omap (λ entry, heap s2 !! entry.2) (map_to_list (activeBids s2)) in
  let s3 := foldr release s2 objects in
  (set_activeBids (λ _, ∅) s3,
   [PoolClose (askRelays s); PoolClose (questionRelays s)]).

(** ** The event loop *)

(** What an awaited promise settles to. *)
Inductive Response :=
  | RBid (r : Result (option Bid))
  | RInvoice (r : Result InvoiceResponse)
  | RLookup (r : Result LookupResponse)
  | RAnswer (r : Result Answer)
  | RPublished (results : list bool).

(** Resumption of a suspended handler; [None] when the response is not of
    the kind the handler awaits. *)
Definition resume (t : Task) (r : Response) (e : Env) (s : State)
  : option Outcome :=
  match t, r with
  | AwaitOnAsk askEv, RBid r => Some (handleAskEvent_decided askEv r e s)
  | AwaitBidInvoice askEv b sk, RInvoice r =>
      Some (handleAskEvent_invoiced askEv b sk r e s)
  | AwaitBidPublish askEv b bidEv payloadEv hash, RPublished results =>
      Some (handleAskEvent_published askEv b bidEv payloadEv hash results e s)
  | AwaitLookup qev ref payload preimage, RLookup r =>
      Some (handleQuestionEvent_looked_up qev ref payload preimage r s)
  | AwaitAnswer qev ref q, RAnswer r =>
      Some (handleQuestionEvent_answered qev ref q r e s)
  | AwaitFollowupInvoice qev ref q a, RInvoice r =>
      Some (handleQuestionEvent_invoiced qev ref q a r e s)
  | AwaitAnswerPublish qev ref q a inv hash answerEv, RPublished results =>
      Some (handleQuestionEvent_published qev ref q a inv hash answerEv
              results s)
  | _, _ => None
  end.

Inductive Input :=
  | InStart (e : Env)
  | InDispose
  | InEvent (sub : nat) (ev : Event)
  | InTimer (tid : nat)
  | InResume (task : nat) (r : Response) (e : Env).

(** The program memory, the handlers in flight and the calls made so far. *)
Record Machine := mkMachine {
  mem : State;
  pending : list (option Task);
  trace : list Effect
}.

Definition boot (s : State) : Machine := mkMachine s [] [].

Definition step (i : Input) (m : Machine) : Machine :=
  match i with
  | InStart e => mkMachine (start e (mem m)) (pending m) (trace m)
  | InDispose =>
      let '(s, effs) := dispose (mem m) in
      mkMachine s (pending m) (trace m ++ effs)
  | InEvent sub ev =>
      let '(s, effs, t) := onevent sub ev (mem m) in
      mkMachine s
        (match t with Some _ => pending m ++ [t] | None => pending m end)
        (trace m ++ effs)
  | InTimer tid => mkMachine (fire_timer tid (mem m)) (pending m) (trace m)
  | InResume task r e =>
      match pending m !! task with
      | Some (Some t) =>
          match resume t r e (mem m) with
          | Some (s, effs, t') =>
              mkMachine s (<[task := t']> (pending m)) (trace m ++ effs)
          | None => m
          end
      | _ => m
      end
  end.

Definition run (inputs : list Input) (m : Machine) : Machine :=
  foldl (λ m i, step i m) m inputs.

(** *** Observations on a list of calls *)

Definition is_publish (f : Effect) : bool :=
  match f with Publish _ _ => true | _ => false end.

Definition is_lookup (f : Effect) : bool :=
  match f with CallLookupInvoice _ => true | _ => false end.

(** The ids of the questions the answer handler was called with. *)
Definition questions_asked (effs : list Effect) : list string :=
  omap (λ f, match f with
             | CallOnQuestion _ _ q _ => Some (q_id q)
             | _ => None
             end) effs.

(** The ids of the questions that answer events were published for: the
    value of their [e] tag. *)
Definition questions_answered (effs : list Effect) : list string :=
  omap (λ f, match f with
             | Publish _ ev =>
                 if ev_kind ev =? NOSTR_EVENT_KIND_ANSWER
                 then (ev_tags ev !! 0%nat) ≫= (λ tag, tag !! 1%nat)
                 else None
             | _ => None
             end) effs.

(** *** One handler under any scheduling

    [unfolds t rs effs]: a handler suspended as [t] (or finished, [None]) is
    resumed with the responses [rs], one after the other, each time in
    whatever memory and environment the event loop is in by then, and makes
    the calls [effs] on the way; it may still be suspended at the end. *)
Inductive unfolds : option Task → list Response → list Effect → Prop :=
  | unfolds_here (t : option Task) : unfolds t [] []
  | unfolds_resume (t : Task) (r : Response) (e : Env) (s s' : State)
      (effs : list Effect) (t' : option Task) (rs : list Response)
      (effs' : list Effect) :
      resume t r e s = Some (s', effs, t') →
      unfolds t' rs effs' →
      unfolds (Some t) (r :: rs) (effs ++ effs').

(** The payment evidence carried by a question for the conversation object
    [activeBid]: the preimage found in the decrypted payload, decoded from
    hexadecimal and hashed with SHA-256, is the payment hash [hash] the
    conversation holds. *)
Definition payment_proved (questionEvent : Event) (activeBid : nat)
    (s : State) (hash : string) : Prop :=
  ∃ ab payload preimage bytes,
    heap s !! activeBid = Some ab ∧
    paymentHash ab = hash ∧
    decrypt_question questionEvent ab s = Some payload ∧
    extract_preimage payload = Some preimage ∧
    hexToBytes preimage = Some bytes ∧
    bytesToHex (sha256 bytes) = hash.

(** The suspension points of [handleQuestionEvent] that lie after both
    payment checks. *)
Definition answering (t : Task) : Prop :=
  match t with
  | AwaitAnswer _ _ _ | AwaitFollowupInvoice _ _ _ _
  | AwaitAnswerPublish _ _ _ _ _ _ _ => True
  | _ => False
  end.

(** What such a handler may still call: the answer handler is not called
    again, the wallet is not asked about settlement again, and whatever is
    published is an answer event. *)
Definition after_payment (f : Effect) : Prop :=
  match f with
  | CallMakeInvoice _ _ => True
  | Publish _ ev => ev_kind ev = NOSTR_EVENT_KIND_ANSWER
  | _ => False
  end.

(** A handler that has finished, or was never started: resuming it does
    nothing. *)
Definition idle (m : Machine) (task : nat) : Prop :=
  pending m !! task = None ∨ pending m !! task = Some None.

(** The wallet reports the invoice as settled. *)
Definition settled (r : Response) : Prop :=
  ∃ t, r = RLookup (Resolved (mkLookupResponse (Some t))) ∧ 0 < t.

(** A conversation is armed under [key]: the registry maps [key] to the
    object, the object records [key] as its context id and owns the open
    subscription [sub], whose callback is one of the two question callbacks
    bound to [key], and the pending timer [timeout], whose closure is bound
    to that subscription and that key. *)
Definition is_armed (s : State) (key : string) (activeBid sub timeout : nat)
  : Prop :=
  ∃ ab sb t,
    activeBids s !! key = Some activeBid ∧
    heap s !! activeBid = Some ab ∧
    contextId ab = key ∧ subscription ab = sub ∧ timeoutId ab = timeout ∧
    subs s !! sub = Some sb ∧ sub_closed sb = false ∧
    sub_filters sb = [questionFilter key] ∧
    (sub_onevent sb = OnQuestion key timeout
     ∨ sub_onevent sb = OnFollowup key activeBid timeout) ∧
    timers s !! timeout = Some t ∧
    t_state t = Pending ∧ t_sub t = sub ∧ t_key t = key.

(** *** How the memory may change

    What one step may do to an object of the heap: the ask, the bid, the
    session key and the creation time stay, the history is only extended. *)
Definition object_evolves (ab ab' : ActiveBid) : Prop :=
  askEvent ab' = askEvent ab ∧
  bidEvent ab' = bidEvent ab ∧
  bidPayloadEvent ab' = bidPayloadEvent ab ∧
  sessionPubkey ab' = sessionPubkey ab ∧
  timestamp ab' = timestamp ab ∧
  bid ab' = bid ab ∧
  default [] (history ab) `prefix_of` default [] (history ab').

(** To a subscription: it keeps its relays, filters and callback, and once
    closed it stays closed. *)
Definition sub_evolves (sb sb' : Sub) : Prop :=
  sub_relays sb' = sub_relays sb ∧
  sub_filters sb' = sub_filters sb ∧
  sub_onevent sb' = sub_onevent sb ∧
  (sub_closed sb = true → sub_closed sb' = true).

(** To a timer: it keeps its delay and its closure, and once cleared or
    fired it stays so. *)
Definition timer_evolves (t t' : Timer) : Prop :=
  t_delay_ms t' = t_delay_ms t ∧
  t_sub t' = t_sub t ∧
  t_key t' = t_key t ∧
  (t_state t ≠ Pending → t_state t' = t_state t).

(** To the whole memory: the configuration stays, and every object,
    subscription and timer is still there under the same handle. *)
Definition evolves (s s' : State) : Prop :=
  expertPrivkey s' = expertPrivkey s ∧
  askRelays s' = askRelays s ∧
  questionRelays s' = questionRelays s ∧
  hashtags s' = hashtags s ∧
  bidTimeout s' = bidTimeout s ∧
  (∀ ref ab, heap s !! ref = Some ab →
     ∃ ab', heap s' !! ref = Some ab' ∧ object_evolves ab ab') ∧
  (∀ sub sb, subs s !! sub = Some sb →
     ∃ sb', subs s' !! sub = Some sb' ∧ sub_evolves sb sb') ∧
  (∀ tid t, timers s !! tid = Some t →
     ∃ t', timers s' !! tid = Some t' ∧ timer_evolves t t').

(** *** Kinds of suspended handlers and of responses *)

(** The suspension points of [handleAskEvent]. *)
Definition bidding (t : Task) : Prop :=
  match t with
  | AwaitOnAsk _ | AwaitBidInvoice _ _ _ | AwaitBidPublish _ _ _ _ _ => True
  | _ => False
  end.

(** The two suspension points at [await Promise.allSettled]. *)
Definition settling (t : Task) : Prop :=
  match t with
  | AwaitBidPublish _ _ _ _ _ | AwaitAnswerPublish _ _ _ _ _ _ _ => True
  | _ => False
  end.

(** The awaited promise is rejected (a handler or the wallet throws). *)
Definition rejection (r : Response) : Prop :=
  match r with
  | RBid Rejected | RInvoice Rejected | RLookup Rejected
  | RAnswer Rejected => True
  | _ => False
  end.

(** The only publications of an expert configured as [s]: bid events to
    the ask relays and answer events to the question relays. *)
Definition own_publication (s : State) (f : Effect) : Prop :=
  match f with
  | Publish relays ev =>
      (ev_kind ev = NOSTR_EVENT_KIND_BID ∧ relays = askRelays s)
      ∨ (ev_kind ev = NOSTR_EVENT_KIND_ANSWER ∧ relays = questionRelays s)
  | _ => True
  end.

(** *** Timers behind the registry *)

(** The callbacks of the subscriptions and the keys of the timers, by
    handle. *)
Definition callbacks (s : State) : list SubCallback :=
  sub_onevent <$> subs s.

Definition timer_keys (s : State) : list string := t_key <$> timers s.

(** The timer a question callback clears is the one that was set for the
    same key. *)
Definition paired (s : State) : Prop :=
  ∀ sub cb, callbacks s !! sub = Some cb →
    match cb with
    | OnAsk => True
    | OnQuestion key timeout | OnFollowup key _ timeout =>
        timer_keys s !! timeout = Some key
    end.

(** Every key of the registry has a pending timer of [bidTimeout] seconds
    whose closure deletes that key. *)
Definition can_expire (s : State) : Prop :=
  ∀ key ref, activeBids s !! key = Some ref →
    ∃ tid t,
      timers s !! tid = Some t ∧ t_state t = Pending ∧ t_key t = key ∧
      t_delay_ms t = bidTimeout s * 1000.

(** A memory with no subscription, no timer and an empty registry: the one
    the constructor makes. *)
Definition fresh (s : State) : Prop :=
  subs s = [] ∧ timers s = [] ∧ activeBids s = ∅.


End Expert.

(** ** Stand-ins for running the model

    A toy implementation of the library interface, used to evaluate the
    model on concrete inputs. It has the shape of the real libraries and
    none of their cryptographic strength: the hash reverses its input, the
    cipher prefixes the plaintext, hexadecimal coding is the identity on
    characters, and a question payload is written [preimage/content]. *)
Module Toy.

Fixpoint split_slash (s : string) : option (string * string) :=
  match s with
  | EmptyString => None
  | String c rest =>
      if Ascii.eqb c "/"%char then Some (EmptyString, rest)
      else match split_slash rest with
           | Some (a, b) => Some (String c a, b)
           | None => None
           end
  end.

Definition parse (s : string) : option QuestionPayload :=
  match split_slash s with
  | Some (pre, text) => Some (mkQuestionPayload text [["preimage"; pre]])
  | None => Some (mkQuestionPayload s [])
  end.

Definition decrypt (c : string) (key : Bytes) : option string :=
  match c with
  | String "e" (String "n" (String "c" (String ":" p))) => Some p
  | _ => None
  end.

#[export] Instance libs : Libs := {|
  getPublicKey sk := "pub-" +:+ String.string_of_list_byte sk;
  getEventHash u := "id(" +:+ u_pubkey u +:+ "," +:+ u_content u +:+ ")";
  schnorrSign i sk := "sig-" +:+ i;
  getConversationKey sk pk := Some (sk ++ String.list_byte_of_string pk);
  nip44_encrypt p key nonce := Some ("enc:" +:+ p);
  nip44_decrypt := decrypt;
  stringifyEvent ev := ev_content ev;
  stringifyAnswerPayload p := ap_content p;
  parseQuestionPayload := parse;
  hexToBytes s := Some (String.list_byte_of_string s);
  sha256 bytes := rev bytes;
  bytesToHex := String.string_of_list_byte
|}.

Definition key (s : string) : Bytes := String.list_byte_of_string s.

(** An expert listening for the topic [test], with two question relays and
    the default timeout. *)
Definition expert : State :=
  constructor (key "k") ["wss://ask"] ["wss://q1"; "wss://q2"] ["test"] None.

(** The same expert configured without hashtags. *)
Definition expert_no_tags : State :=
  constructor (key "k") ["wss://ask"] ["wss://q1"; "wss://q2"] [] None.

Definition env (t : Z) (sk : string) : Env := mkEnv t (key sk) (key "n").

Definition ask_event : Event :=
  mkEvent "ask1" "client" 1700000000 NOSTR_EVENT_KIND_ASK [["t"; "test"]]
    "how?" "sig".

Definition the_bid : Bid := mkBid "hi" (number 10) None.

(** A question tagging [ctx], carrying preimage [pre]. *)
Definition question_event (qid ctx pre : string) : Event :=
  mkEvent qid "client" 1700000100 NOSTR_EVENT_KIND_QUESTION [["e"; ctx]]
    ("enc:" +:+ pre +:+ "/why?") "sig".

(** Ask, decision, invoice with payment hash [H], publication accepted by
    one relay of one: a conversation is armed. *)
Definition armed : Machine :=
  run [InStart (env 1700000000000 "s");
       InEvent 0%nat ask_event;
       InResume 0%nat (RBid (Resolved (Some the_bid))) (env 1700000001000 "b");
       InResume 0%nat (RInvoice (Resolved (mkInvoiceResponse "lnbc1" "H")))
         (env 1700000002000 "s");
       InResume 0%nat (RPublished [true]) (env 1700000003000 "s")]
    (boot expert).

(** The context id of the armed conversation: the id of the bid payload. *)
Definition ctx : string := "id(pub-k,hi)".

Definition paid : Response := RLookup (Resolved (mkLookupResponse (Some 123))).

Definition unpaid : Response := RLookup (Resolved (mkLookupResponse (Some 0))).

(** An answer that offers a follow-up for 5 sats. *)
Definition answer1 : Answer := mkAnswer "A1" (Some (number 5)) None.

Definition answer_plain : Answer := mkAnswer "A2" None None.

(** The first turn of [armed] up to the publication of the answer: the
    question pays with the preimage of [H], the handler offers a follow-up,
    the wallet mints the follow-up invoice with payment hash [H2]. *)
Definition first_turn : list Input :=
  [InEvent 2%nat (question_event "q1" ctx "H");
   InResume 1%nat paid (env 1700000010000 "s");
   InResume 1%nat (RAnswer (Resolved answer1)) (env 1700000011000 "s");
   InResume 1%nat (RInvoice (Resolved (mkInvoiceResponse "lnbc2" "H2")))
     (env 1700000012000 "a")].

(** The id of the answer event signed in [first_turn]. *)
Definition answer_id : string := "id(pub-a,enc:A1)".

(** The events and the conversation object these runs produce. *)
Definition bid_event : Event :=
  mkEvent "id(pub-b,enc:hi)" "pub-b" 1700000002 20175 [["e"; "ask1"]]
    "enc:hi" "sig-id(pub-b,enc:hi)".

Definition bid_payload_event : Event :=
  mkEvent ctx "pub-k" 1700000002 20176
    [["invoice"; "lnbc1"]; ["relay"; "wss://q1"]; ["relay"; "wss://q2"]]
    "hi" "sig-id(pub-k,hi)".

Definition conversation : ActiveBid :=
  mkActiveBid ask_event bid_event bid_payload_event "client" "H" 1700000003
    2 0 the_bid (Some []) ctx.

Definition question1 : Question :=
  mkQuestion "q1" "why?" "H" [["preimage"; "H"]].

Definition answer_event : Event :=
  mkEvent answer_id "pub-a" 1700000012 20178 [["e"; "q1"]] "enc:A1"
    "sig-id(pub-a,enc:A1)".

(** The answer is accepted by one of the two question relays. *)
Definition followup_armed : Machine :=
  run (first_turn ++ [InResume 1%nat (RPublished [true; false])
                        (env 1700000013000 "s")]) armed.

(** The answer is rejected by both question relays. *)
Definition answer_rejected : Machine :=
  run (first_turn ++ [InResume 1%nat (RPublished [false; false])
                        (env 1700000013000 "s")]) armed.

(** Two questions for the follow-up turn reach the callback of the follow-up
    subscription, the second while the first is waiting for the wallet; both
    are then carried to the end. *)
Definition second_turn_twice : Machine :=
  run [InEvent 3%nat (question_event "q2" answer_id "2H");
       InEvent 3%nat (question_event "q3" answer_id "2H");
       InResume 2%nat paid (env 1700000020000 "s");
       InResume 3%nat paid (env 1700000020000 "s");
       InResume 2%nat (RAnswer (Resolved answer_plain))
         (env 1700000021000 "c");
       InResume 3%nat (RAnswer (Resolved answer_plain))
         (env 1700000021000 "d");
       InResume 2%nat (RPublished [true; true]) (env 1700000022000 "s");
       InResume 3%nat (RPublished [true; true]) (env 1700000022000 "s")]
    followup_armed.

(** The same two questions on the first turn, through the callback of the
    subscription opened for the bid. *)
Definition first_turn_twice : Machine :=
  run [InEvent 2%nat (question_event "q1" ctx "H");
       InEvent 2%nat (question_event "q1b" ctx "H");
       InResume 1%nat paid (env 1700000010000 "s");
       InResume 2%nat paid (env 1700000010000 "s")]
    armed.

(** A bid, and an answer offering a follow-up, for [2^53 - 1] sats
    ([Number.MAX_SAFE_INTEGER]), which is a [number]. *)
Definition big_bid : Bid := mkBid "hi" (number 9007199254740991) None.

Definition big_answer : Answer :=
  mkAnswer "A1" (Some (number 9007199254740991)) None.








(** The answer event of a first turn answered with [answer_plain]. *)
Definition plain_answer_event : Event :=
  mkEvent "id(pub-c,enc:A2)" "pub-c" 1700000011 20178 [["e"; "q1"]] "enc:A2"
    "sig-id(pub-c,enc:A2)".

End Toy.

(** * Properties *)

Section Properties.
Context `{Libs}.

(** ** Bookkeeping lemmas *)

Lemma insert_last {A : Type} (l : list A) (x y : A) :
  <[length l := y]> (l ++ [x]) = l ++ [y].
Proof.
  replace (length l) with (length l + 0)%nat at 1 by lia.
  by rewrite insert_app_r.
Qed.

(** [successful] is positive exactly when some promise was fulfilled. *)
Lemma successful_positive (results : list bool) :
  (0 < successful results)%nat ↔ true ∈ results.
Proof.
  unfold successful. split.
  - intros Hlen.
    destruct (filter (λ r, r = true) results) as [|r l] eqn:Hf;
      [simpl in Hlen; lia|].
    assert (r ∈ filter (λ r, r = true) results) as Hin
      by (rewrite Hf; left).
    by apply list_elem_of_filter in Hin as [-> Hin].
  - intros Hin.
    assert (true ∈ filter (λ r, r = true) results) as Hin'
      by (by apply list_elem_of_filter).
    destruct (filter (λ r, r = true) results); [by apply elem_of_nil in Hin'|].
    simpl. lia.
Qed.

(** ** Arithmetic on [number]s

    The product of two integers is exact as long as it stays below [2^53]:
    the rounding of [js_mul] then shifts out zero bits only. *)

Lemma digits2_pos_iter (p k : positive) :
  Zpos (digits2_pos (Pos.iter xO p k)) = Zpos (digits2_pos p) + Zpos k.
Proof.
  induction k as [|k IH] using Pos.peano_ind.
  - simpl. lia.
  - rewrite Pos.iter_succ. simpl. lia.
Qed.

Lemma digits2_pos_shift (p : positive) (k : Z) :
  0 ≤ k → Zpos (digits2_pos (shift p k)) = Zpos (digits2_pos p) + k.
Proof.
  destruct k as [|k|k]; simpl; [lia| |lia].
  intros _. apply digits2_pos_iter.
Qed.

Lemma shift_value (p : positive) (k : Z) :
  0 ≤ k → Zpos (shift p k) = Zpos p * 2 ^ k.
Proof.
  destruct k as [|k|k]; simpl shift; [lia| |lia].
  intros _. induction k as [|k IH] using Pos.peano_ind.
  - simpl. lia.
  - rewrite Pos.iter_succ, Pos2Z.inj_xO, IH, Pos2Z.inj_succ, Z.pow_succ_r by lia.
    lia.
Qed.

Lemma digits2_pos_bounds (p : positive) :
  2 ^ (Zpos (digits2_pos p) - 1) ≤ Zpos p < 2 ^ Zpos (digits2_pos p).
Proof.
  induction p as [p IH|p IH|]; simpl digits2_pos.
  - rewrite Pos2Z.inj_succ, Z.pow_succ_r by lia.
    replace (Z.succ (Zpos (digits2_pos p)) - 1)
      with (Z.succ (Zpos (digits2_pos p) - 1)) by lia.
    rewrite Z.pow_succ_r by lia. lia.
  - rewrite Pos2Z.inj_succ, Z.pow_succ_r by lia.
    replace (Z.succ (Zpos (digits2_pos p)) - 1)
      with (Z.succ (Zpos (digits2_pos p) - 1)) by lia.
    rewrite Z.pow_succ_r by lia. lia.
  - simpl. lia.
Qed.

Lemma digits2_pos_le (p : positive) (d : Z) :
  Zpos p < 2 ^ d → Zpos (digits2_pos p) ≤ d.
Proof.
  intros Hlt. destruct (digits2_pos_bounds p) as [Hlo _].
  destruct (Z.le_gt_cases (Zpos (digits2_pos p)) d) as [|Hgt]; [done|].
  assert (2 ^ d ≤ 2 ^ (Zpos (digits2_pos p) - 1))
    by (apply Z.pow_le_mono_r; lia).
  lia.
Qed.

Lemma iter_pos_swap {A} (f : A → A) (p : positive) (x : A) :
  SpecFloat.iter_pos f p (f x) = f (SpecFloat.iter_pos f p x).
Proof.
  revert x. induction p as [p IH|p IH|]; intros x; simpl.
  - by rewrite !IH.
  - by rewrite !IH.
  - done.
Qed.

Lemma iter_pos_succ {A} (f : A → A) (p : positive) (x : A) :
  SpecFloat.iter_pos f (Pos.succ p) x = f (SpecFloat.iter_pos f p x).
Proof.
  revert x. induction p as [p IH|p IH|]; intros x; simpl.
  - by rewrite !IH, !iter_pos_swap.
  - by rewrite !iter_pos_swap.
  - done.
Qed.

(** Shifting out [k] zero bits is exact. *)
Lemma shr_shift (m k : positive) :
  SpecFloat.iter_pos shr_1 k (Build_shr_record (Zpos (Pos.iter xO m k)) false false)
  = Build_shr_record (Zpos m) false false.
Proof.
  induction k as [|k IH] using Pos.peano_ind.
  - reflexivity.
  - rewrite iter_pos_succ, <- iter_pos_swap, Pos.iter_succ. simpl. apply IH.
Qed.

Lemma binary_round_aux_canonical (s : bool) (m : positive) (e : Z) :
  Zpos (digits2_pos m) = 53 → -1074 ≤ e ≤ 971 →
  binary_round_aux 53 1024 s (Zpos m) e loc_Exact = S754_finite s m e.
Proof.
  intros Hd He. unfold binary_round_aux, shr_fexp. simpl Zdigits2.
  rewrite Hd.
  replace (fexp 53 1024 (53 + e) - e) with 0 by (unfold fexp, emin; lia).
  simpl. rewrite Hd.
  replace (fexp 53 1024 (53 + e) - e) with 0 by (unfold fexp, emin; lia).
  simpl. destruct (Z.leb_spec e (1024 - 53)); [done|lia].
Qed.

Lemma binary_round_aux_shift (s : bool) (m : positive) (e k : Z) :
  Zpos (digits2_pos m) = 53 → 0 ≤ k → -1074 ≤ e + k ≤ 971 →
  binary_round_aux 53 1024 s (Zpos (shift m k)) e loc_Exact
  = S754_finite s m (e + k).
Proof.
  intros Hd Hk He. destruct k as [|k|k]; [|clear Hk|lia].
  - rewrite Z.add_0_r in *. by apply binary_round_aux_canonical.
  - unfold binary_round_aux, shr_fexp at 1. simpl Zdigits2.
    rewrite digits2_pos_iter, Hd.
    replace (fexp 53 1024 (53 + Zpos k + e) - e) with (Zpos k)
      by (unfold fexp, emin; lia).
    simpl shr_record_of_loc. unfold shr at 1. rewrite shr_shift.
    simpl shr_m. simpl loc_of_shr_record. simpl round_nearest_even.
    unfold shr_fexp. simpl Zdigits2. rewrite Hd.
    replace (fexp 53 1024 (53 + (e + Zpos k)) - (e + Zpos k)) with 0
      by (unfold fexp, emin; lia).
    simpl. destruct (Z.leb_spec (e + Zpos k) (1024 - 53)); [done|lia].
Qed.

Lemma number_canonical (p : positive) :
  Zpos p < 2 ^ 53 → number (Zpos p) = canonical p.
Proof.
  intros Hp. apply digits2_pos_le in Hp.
  unfold number, binary_normalize, binary_round, shl_align, canonical.
  rewrite Z.add_0_r.
  replace (fexp 53 1024 (Zpos (digits2_pos p)) - 0)
    with (Zpos (digits2_pos p) - 53) by (unfold fexp, emin; lia).
  destruct (Zpos (digits2_pos p) - 53) as [|d|d] eqn:Hd; [|lia|].
  - replace (53 - Zpos (digits2_pos p)) with 0 by lia. simpl shift.
    apply binary_round_aux_canonical; lia.
  - replace (53 - Zpos (digits2_pos p)) with (Zpos d) by lia. simpl shift.
    replace (fexp 53 1024 (Zpos (digits2_pos p)))
      with (Z.neg d) by (unfold fexp, emin; lia).
    apply binary_round_aux_canonical; [rewrite digits2_pos_iter|]; lia.
Qed.

Lemma js_mul_canonical (p q : positive) :
  Zpos p * Zpos q < 2 ^ 53 →
  js_mul (canonical p) (canonical q) = canonical (p * q).
Proof.
  intros Hpq.
  pose proof (digits2_pos_bounds p) as [Hp _].
  pose proof (digits2_pos_bounds q) as [Hq _].
  pose proof (digits2_pos_bounds (p * q)) as [_ Hpq'].
  rewrite Pos2Z.inj_mul in Hpq'.
  assert (Zpos (digits2_pos (p * q)) ≤ 53) as Hd
    by (apply digits2_pos_le; by rewrite Pos2Z.inj_mul).
  assert (Zpos (digits2_pos p) ≤ 53) as Hdp by (apply digits2_pos_le; nia).
  assert (Zpos (digits2_pos q) ≤ 53) as Hdq by (apply digits2_pos_le; nia).
  assert (Zpos (digits2_pos p) + Zpos (digits2_pos q) - 2
          < Zpos (digits2_pos (p * q))) as Hlow.
  { apply (Z.pow_lt_mono_r_iff 2); [lia|lia|].
    replace (Zpos (digits2_pos p) + Zpos (digits2_pos q) - 2)
      with ((Zpos (digits2_pos p) - 1) + (Zpos (digits2_pos q) - 1)) by lia.
    rewrite Z.pow_add_r by lia. nia. }
  unfold js_mul, canonical at 1 2. simpl SFmul.
  set (a := 53 - Zpos (digits2_pos p)).
  set (b := 53 - Zpos (digits2_pos q)).
  set (c := 53 - Zpos (digits2_pos (p * q))).
  assert ((shift p a * shift q b)%positive = shift (shift (p * q) c) (a + b - c))
    as ->.
  { apply Pos2Z.inj. rewrite Pos2Z.inj_mul, !shift_value by lia.
    rewrite Pos2Z.inj_mul.
    assert (2 ^ a * 2 ^ b = 2 ^ c * 2 ^ (a + b - c)) as Hpow.
    { rewrite <- !Z.pow_add_r by lia. f_equal. lia. }
    transitivity (Zpos p * Zpos q * (2 ^ a * 2 ^ b)); [ring|].
    rewrite Hpow. ring. }
  rewrite binary_round_aux_shift.
  - unfold canonical. f_equal. lia.
  - rewrite digits2_pos_shift; lia.
  - lia.
  - lia.
Qed.

Lemma js_mul_exact (n k : Z) :
  0 ≤ n < 2 ^ 53 → 0 ≤ k < 2 ^ 53 → n * k < 2 ^ 53 →
  js_mul (number n) (number k) = number (n * k).
Proof.
  intros Hn Hk Hlt. destruct n as [|p|p]; [| |lia].
  - destruct k as [|q|q]; [done| |lia].
    by rewrite number_canonical by lia.
  - destruct k as [|q|q]; [| |lia].
    + by rewrite number_canonical by lia.
    + rewrite (number_canonical p), (number_canonical q) by lia.
      change (Zpos p * Zpos q) with (Zpos (p * q)) in *.
      rewrite (number_canonical (p * q)) by lia.
      apply js_mul_canonical. by rewrite <- Pos2Z.inj_mul.
Qed.

Lemma integer_value_number (k : Z) :
  0 ≤ k < 2 ^ 53 → integer_value (number k) = Some k.
Proof.
  intros [Hk Hlt]. destruct k as [|p|p]; [done| |lia].
  rewrite number_canonical by done. apply digits2_pos_le in Hlt.
  unfold canonical, integer_value.
  case_bool_decide as He.
  - assert (Zpos (digits2_pos p) - 53 = 0) as -> by lia.
    replace (53 - Zpos (digits2_pos p)) with 0 by lia. simpl. f_equal. lia.
  - rewrite shift_value by lia.
    replace (- (Zpos (digits2_pos p) - 53)) with (53 - Zpos (digits2_pos p))
      by lia.
    rewrite Z.mod_mul, Z.div_mul by lia. rewrite bool_decide_eq_true_2; done.
Qed.

(** ** The shape of each segment *)

Lemma positive_number_spec (o : option Number) :
  positive_number o = true ↔ ∃ x, o = Some x ∧ js_gt x (number 0) = true.
Proof.
  unfold positive_number. destruct o as [x|].
  - split.
    + intros [_ Hx]%andb_true_iff. eauto.
    + intros (y & [= <-] & Hy). rewrite Hy, andb_true_r.
      by destruct x as [| | |[]].
  - split; [discriminate | intros (n & [=] & _)].
Qed.

Lemma unsettled_spec (r : LookupResponse) :
  unsettled r = false ↔ ∃ t, settled_at r = Some t ∧ 0 < t.
Proof.
  unfold unsettled. destruct (settled_at r) as [t|].
  - rewrite orb_false_iff, Z.eqb_neq, Z.leb_gt.
    split; [intros [_ Ht]; eauto | intros (m & [= <-] & Hm); lia].
  - split; [discriminate | intros (t & [=] & _)].
Qed.

Lemma truthy_string_spec (o : option string) :
  truthy_string o = true ↔ ∃ v, o = Some v ∧ v ≠ ""%string.
Proof.
  unfold truthy_string. destruct o as [v|].
  - rewrite negb_true_iff, bool_decide_eq_false.
    split; [eauto | intros (w & [= <-] & Hw); done].
  - split; [discriminate | intros (v & [=] & _)].
Qed.

Lemma handleQuestionEvent_cases (qev : Event) (ref : nat) (s : State) :
  handleQuestionEvent qev ref s = (s, [], None)
  ∨ ∃ ab payload pre,
      heap s !! ref = Some ab ∧
      ev_kind qev = NOSTR_EVENT_KIND_QUESTION ∧
      tags_context qev ab = true ∧
      decrypt_question qev ab s = Some payload ∧
      extract_preimage payload = Some pre ∧
      pre ≠ ""%string ∧
      preimage_matches pre (paymentHash ab) = Some true ∧
      handleQuestionEvent qev ref s =
        (s, [CallLookupInvoice (paymentHash ab)],
         Some (AwaitLookup qev ref payload pre)).
Proof.
  unfold handleQuestionEvent.
  destruct (heap s !! ref) as [ab|] eqn:Hab; [|by left].
  case_bool_decide as Hkind; [by left|].
  destruct (tags_context qev ab) eqn:Htag; simpl; [|by left].
  destruct (decrypt_question qev ab s) as [payload|] eqn:Hdec; [|by left].
  destruct (extract_preimage payload) as [pre|] eqn:Hpre; [|by left].
  case_bool_decide as Hempty; simpl; [by left|].
  destruct (preimage_matches pre (paymentHash ab)) as [[]|] eqn:Hm;
    [|by left|by left].
  right. exists ab, payload, pre. repeat split; done.
Qed.

Lemma handleQuestionEvent_looked_up_cases (qev : Event) (ref : nat)
    (payload : QuestionPayload) (pre : string) (r : Result LookupResponse)
    (s : State) :
  handleQuestionEvent_looked_up qev ref payload pre r s = (s, [], None)
  ∨ ∃ ab t,
      r = Resolved (mkLookupResponse (Some t)) ∧ 0 < t ∧
      heap s !! ref = Some ab ∧
      handleQuestionEvent_looked_up qev ref payload pre r s =
        (s,
         [CallOnQuestion (ask_of_event (askEvent ab)) (bid ab)
            (mkQuestion (ev_id qev) (qp_content payload) pre (qp_tags payload))
            (history ab)],
         Some (AwaitAnswer qev ref
                 (mkQuestion (ev_id qev) (qp_content payload) pre
                    (qp_tags payload)))).
Proof.
  unfold handleQuestionEvent_looked_up.
  destruct r as [status|]; [|by left].
  destruct (heap s !! ref) as [ab|] eqn:Hab; [|by left].
  destruct (unsettled status) eqn:Hu; [by left|].
  apply unsettled_spec in Hu as (t & Ht & Hpos).
  right. exists ab, t. destruct status as [st]; simpl in Ht; subst st.
  done.
Qed.

Lemma publish_answer_cases (qev : Event) (ref : nat) (q : Question)
    (a : Answer) (inv hash : option string) (e : Env) (s : State) :
  publish_answer qev ref q a inv hash e s = (s, [], None)
  ∨ ∃ ab key enc,
      heap s !! ref = Some ab ∧
      getConversationKey (expertPrivkey s) (sessionPubkey ab) = Some key ∧
      nip44_encrypt (stringifyAnswerPayload (answerPayload a inv)) key
        (fresh_nonce e) = Some enc ∧
      publish_answer qev ref q a inv hash e s =
        (s,
         [Publish (questionRelays s)
            (finalizeEvent (answerEvent qev (fresh_sk e) enc e) (fresh_sk e))],
         Some (AwaitAnswerPublish qev ref q a inv hash
                 (finalizeEvent (answerEvent qev (fresh_sk e) enc e)
                    (fresh_sk e)))).
Proof.
  unfold publish_answer.
  destruct (heap s !! ref) as [ab|] eqn:Hab; [|by left].
  destruct (getConversationKey _ _) as [key|] eqn:Hkey; [|by left].
  destruct (nip44_encrypt _ _ _) as [enc|] eqn:Henc; [|by left].
  right. by exists ab, key, enc.
Qed.

Lemma handleQuestionEvent_answered_cases (qev : Event) (ref : nat)
    (q : Question) (r : Result Answer) (e : Env) (s : State) :
  handleQuestionEvent_answered qev ref q r e s = (s, [], None)
  ∨ (∃ a ab n,
       r = Resolved a ∧ heap s !! ref = Some ab ∧
       followup_sats a = Some n ∧ js_gt n (number 0) = true ∧
       handleQuestionEvent_answered qev ref q r e s =
         (s,
          [CallMakeInvoice (js_mul n (number 1000))
             ("Followup question for " +:+ contextId ab)],
          Some (AwaitFollowupInvoice qev ref q a)))
  ∨ (∃ a,
       r = Resolved a ∧ positive_number (followup_sats a) = false ∧
       handleQuestionEvent_answered qev ref q r e s =
         publish_answer qev ref q a None None e s).
Proof.
  unfold handleQuestionEvent_answered.
  destruct r as [a|]; [|by left].
  destruct (heap s !! ref) as [ab|] eqn:Hab; [|by left].
  destruct (positive_number (followup_sats a)) eqn:Hpos.
  - apply positive_number_spec in Hpos as (n & Hn & Hlt).
    right; left. exists a, ab, n. rewrite Hn. done.
  - right; right. by exists a.
Qed.

Lemma handleAskEvent_invoiced_cases (askEv : Event) (b : Bid) (sk : Bytes)
    (r : Result InvoiceResponse) (e : Env) (s : State) :
  handleAskEvent_invoiced askEv b sk r e s = (s, [], None)
  ∨ ∃ resp key enc,
      r = Resolved resp ∧
      getConversationKey sk (ev_pubkey askEv) = Some key ∧
      nip44_encrypt
        (stringifyEvent
           (finalizeEvent (bidPayload askEv b (invoice resp) e s)
              (expertPrivkey s)))
        key (fresh_nonce e) = Some enc ∧
      handleAskEvent_invoiced askEv b sk r e s =
        (s,
         [Publish (askRelays s)
            (finalizeEvent (bidEventTemplate askEv sk enc e) sk)],
         Some (AwaitBidPublish askEv b
                 (finalizeEvent (bidEventTemplate askEv sk enc e) sk)
                 (finalizeEvent (bidPayload askEv b (invoice resp) e s)
                    (expertPrivkey s))
                 (payment_hash resp))).
Proof.
  unfold handleAskEvent_invoiced.
  destruct r as [resp|]; [|by left].
  destruct (getConversationKey _ _) as [key|] eqn:Hkey; [|by left].
  destruct (nip44_encrypt _ _ _) as [enc|] eqn:Henc; [|by left].
  right. by exists resp, key, enc.
Qed.

Lemma handleAskEvent_published_effects (askEv : Event) (b : Bid)
    (bidEv payloadEv : Event) (hash : string) (results : list bool) (e : Env)
    (s : State) :
  (handleAskEvent_published askEv b bidEv payloadEv hash results e s).1.2 = []
  ∧ (handleAskEvent_published askEv b bidEv payloadEv hash results e s).2
    = None.
Proof. unfold handleAskEvent_published. by case_bool_decide. Qed.

Lemma handleQuestionEvent_published_effects (qev : Event) (ref : nat)
    (q : Question) (a : Answer) (inv hash : option string) (answerEv : Event)
    (results : list bool) (s : State) :
  (handleQuestionEvent_published qev ref q a inv hash answerEv results s).1.2
    = []
  ∧ (handleQuestionEvent_published qev ref q a inv hash answerEv results s).2
    = None.
Proof.
  unfold handleQuestionEvent_published.
  by destruct (truthy_string inv && positive_number (followup_sats a)).
Qed.

Lemma handleQuestionEvent_invoiced_cases (qev : Event) (ref : nat)
    (q : Question) (a : Answer) (r : Result InvoiceResponse) (e : Env)
    (s : State) :
  handleQuestionEvent_invoiced qev ref q a r e s = (s, [], None)
  ∨ ∃ resp,
      r = Resolved resp ∧
      handleQuestionEvent_invoiced qev ref q a r e s =
        publish_answer qev ref q a (Some (invoice resp))
          (Some (payment_hash resp)) e s.
Proof. destruct r as [resp|]; [right; by exists resp | by left]. Qed.

(** What a call list can hold after [publish_answer]. *)
Lemma publish_answer_only_publishes (qev : Event) (ref : nat) (q : Question)
    (a : Answer) (inv hash : option string) (e : Env) (s : State) (f : Effect) :
  f ∈ (publish_answer qev ref q a inv hash e s).1.2 → is_publish f = true.
Proof.
  destruct (publish_answer_cases qev ref q a inv hash e s)
    as [Hp | (? & ? & ? & _ & _ & _ & Hp)]; rewrite Hp; simpl; intros Hin.
  - by apply elem_of_nil in Hin.
  - apply list_elem_of_singleton in Hin. by subst f.
Qed.

(** ** The ask listener *)

(** C3, as amended: [start] always opens two subscriptions on the ask relays,
    both on kind 20174 with [since] ten seconds before the current second.
    The first carries [#t] = the configured hashtags when there are some and
    no tag constraint at all when there are none; the second carries [#p] =
    the expert's public key. *)
Theorem start_opens_two_subscriptions (e : Env) (s : State) :
  subs (start e s) =
    subs s ++
      [mkSub (askRelays s)
         [mkFilter [20174] (Some (now_ms e / 1000 - 10))
            (match hashtags s with [] => None | _ => Some (hashtags s) end)
            None None]
         OnAsk false;
       mkSub (askRelays s)
         [mkFilter [20174] (Some (now_ms e / 1000 - 10)) None
            (Some [getPublicKey (expertPrivkey s)]) None]
         OnAsk false]
  ∧ subscriptions (start e s) =
      subscriptions s ++ [length (subs s); S (length (subs s))]
  ∧ activeBids (start e s) = activeBids s.
Proof.
  unfold start, subscribeMany, set_subscriptions, set_subs; simpl.
  unfold hashtagFilter, pubkeyFilter, expertPubkey, unix_seconds,
    NOSTR_EVENT_KIND_ASK; simpl.
  split; [|split; [|reflexivity]].
  - rewrite <- app_assoc. simpl. do 4 f_equal.
    destruct (hashtags s); reflexivity.
  - rewrite <- app_assoc. simpl. rewrite length_app. simpl.
    do 3 f_equal. lia.
Qed.

(** ** The bid pipeline *)

(** C9: the invoice of a bid asks for the [number] [bid_sats * 1000], the
    binary64 product, under the description "Bid for ask <ask id>"; a
    follow-up invoice is asked for exactly when the answer carries a
    [followup_sats] greater than zero, and then for the [number]
    [followup_sats * 1000]; no other step of the program asks the wallet for
    an invoice.  For a whole number of sats [n >= 0] with [n * 1000 < 2^53]
    the product is exact: the amount is the integer [n * 1000]. *)
Theorem invoice_amounts :
  (∀ askEv b e s,
     (handleAskEvent_decided askEv (Resolved (Some b)) e s).1.2 =
       [CallMakeInvoice (js_mul (bid_sats b) (number 1000))
          ("Bid for ask " +:+ ev_id askEv)])
  ∧ (∀ qev ref q a e s ab,
       heap s !! ref = Some ab →
       (∃ amount d,
          CallMakeInvoice amount d
            ∈ (handleQuestionEvent_answered qev ref q (Resolved a) e s).1.2)
       ↔ (∃ x, followup_sats a = Some x ∧ js_gt x (number 0) = true))
  ∧ (∀ t r e s s' effs t' amount d,
       resume t r e s = Some (s', effs, t') →
       CallMakeInvoice amount d ∈ effs →
       (∃ askEv b, t = AwaitOnAsk askEv ∧ r = RBid (Resolved (Some b)) ∧
          amount = js_mul (bid_sats b) (number 1000) ∧
          d = "Bid for ask " +:+ ev_id askEv)
       ∨ (∃ qev ref q a x, t = AwaitAnswer qev ref q ∧
            r = RAnswer (Resolved a) ∧ followup_sats a = Some x ∧
            js_gt x (number 0) = true ∧
            amount = js_mul x (number 1000)))
  ∧ (∀ sub ev s amount d, CallMakeInvoice amount d ∉ (onevent sub ev s).1.2)
  ∧ (∀ n, 0 ≤ n → n * 1000 < 2 ^ 53 →
       integer_value (number n) = Some n ∧
       js_mul (number n) (number 1000) = number (n * 1000) ∧
       integer_value (js_mul (number n) (number 1000)) = Some (n * 1000)).
Proof.
  split; [reflexivity|]. split; [|split; [|split]]; cycle 3.
  { intros n Hn Hlt.
    assert (js_mul (number n) (number 1000) = number (n * 1000)) as Hmul
      by (apply js_mul_exact; lia).
    rewrite Hmul. repeat split; apply integer_value_number; lia. }
  - intros qev ref q a e s ab Hab.
    destruct (handleQuestionEvent_answered_cases qev ref q (Resolved a) e s)
      as [Hc | [(a' & ab' & n & [= <-] & _ & Hn & Hlt & Hc)
               | (a' & [= <-] & Hneg & Hc)]].
    + (* only when the object is missing, which [Hab] excludes *)
      revert Hc. unfold handleQuestionEvent_answered. rewrite Hab.
      destruct (positive_number (followup_sats a)) eqn:Hpos; [discriminate|].
      intros Hc. rewrite Hc. simpl. split.
      * intros (amount & d & Hin). by apply elem_of_nil in Hin.
      * intros Hn. apply positive_number_spec in Hn. congruence.
    + rewrite Hc. simpl. split; [eauto|].
      intros _. eexists _, _. apply list_elem_of_singleton. reflexivity.
    + rewrite Hc. split.
      * intros (amount & d & Hin).
        destruct (publish_answer_cases qev ref q a None None e s)
          as [Hp | (? & ? & ? & _ & _ & _ & Hp)];
          rewrite Hp in Hin; simpl in Hin.
        -- by apply elem_of_nil in Hin.
        -- apply list_elem_of_singleton in Hin. discriminate.
      * intros Hn. apply positive_number_spec in Hn. congruence.
  - intros t r e s s' effs t' amount d Hres Hin.
    destruct t, r; simpl in Hres; try discriminate;
      injection Hres as Hout; apply (f_equal (λ o, o.1.2)) in Hout;
      simpl in Hout; subst effs.
    + destruct r as [[b|]|]; simpl in Hin; try by apply elem_of_nil in Hin.
      apply list_elem_of_singleton in Hin. injection Hin as -> ->.
      left. by exists askEv, b.
    + destruct (handleAskEvent_invoiced_cases askEv b bidPrivateKey r e s)
        as [Hc | (? & ? & ? & _ & _ & _ & Hc)];
        rewrite Hc in Hin; simpl in Hin.
      * by apply elem_of_nil in Hin.
      * apply list_elem_of_singleton in Hin. discriminate.
    + rewrite (proj1 (handleAskEvent_published_effects _ _ _ _ _ _ _ _)) in Hin.
      by apply elem_of_nil in Hin.
    + destruct (handleQuestionEvent_looked_up_cases questionEvent activeBid
                  questionPayload preimage r s)
        as [Hc | (? & ? & _ & _ & _ & Hc)]; rewrite Hc in Hin; simpl in Hin.
      * by apply elem_of_nil in Hin.
      * apply list_elem_of_singleton in Hin. discriminate.
    + destruct (handleQuestionEvent_answered_cases questionEvent activeBid q
                  r e s)
        as [Hc | [(a & ab & n & -> & _ & Hn & Hlt & Hc)
                 | (a & -> & _ & Hc)]]; rewrite Hc in Hin; simpl in Hin.
      * by apply elem_of_nil in Hin.
      * apply list_elem_of_singleton in Hin. injection Hin as -> ->.
        right. by exists questionEvent, activeBid, q, a, n.
      * by apply publish_answer_only_publishes in Hin.
    + destruct (handleQuestionEvent_invoiced_cases questionEvent activeBid q
                  a r e s) as [Hc | (resp & -> & Hc)];
        rewrite Hc in Hin; simpl in Hin.
      * by apply elem_of_nil in Hin.
      * by apply publish_answer_only_publishes in Hin.
    + rewrite (proj1 (handleQuestionEvent_published_effects _ _ _ _ _ _ _ _ _))
        in Hin.
      by apply elem_of_nil in Hin.
  - intros sub ev s amount d Hin. unfold onevent in Hin.
    destruct (subs s !! sub) as [sb|]; [|by apply elem_of_nil in Hin].
    destruct (sub_onevent sb).
    + unfold handleAskEvent in Hin. case_bool_decide; simpl in Hin.
      * by apply elem_of_nil in Hin.
      * apply list_elem_of_singleton in Hin. discriminate.
    + unfold onevent_question in Hin.
      destruct (activeBids s !! bidPayloadId);
        [|by apply elem_of_nil in Hin].
      match type of Hin with
      | _ ∈ (handleQuestionEvent ?q ?r ?st).1.2 =>
          destruct (handleQuestionEvent_cases q r st)
            as [Hc | (? & ? & ? & _ & _ & _ & _ & _ & _ & _ & Hc)];
            rewrite Hc in Hin; simpl in Hin
      end.
      * by apply elem_of_nil in Hin.
      * apply list_elem_of_singleton in Hin. discriminate.
    + unfold onevent_followup in Hin.
      match type of Hin with
      | _ ∈ (handleQuestionEvent ?q ?r ?st).1.2 =>
          destruct (handleQuestionEvent_cases q r st)
            as [Hc | (? & ? & ? & _ & _ & _ & _ & _ & _ & _ & Hc)];
            rewrite Hc in Hin; simpl in Hin
      end.
      * by apply elem_of_nil in Hin.
      * apply list_elem_of_singleton in Hin. discriminate.
Qed.


(** C6: [results] holds the outcome of the publication of a bid on each
    relay, [true] for a relay that accepted it. When no relay accepted it,
    the memory is left as it was: nothing is registered and neither a
    subscription nor a timer is created; when at least one relay accepted
    it, one conversation object is created and registered under the id of
    the signed bid payload, one subscription is opened on the question
    relays for kind 20177 with [#e] = that id, and one timer of [bidTimeout]
    seconds is started. *)
Theorem bid_registration (askEv : Event) (b : Bid) (sk : Bytes)
    (resp : InvoiceResponse) (e3 : Env) (s3 : State) (t : Task)
    (results : list bool) (e : Env) (s : State) :
  (handleAskEvent_invoiced askEv b sk (Resolved resp) e3 s3).2 = Some t →
  let payloadEv :=
    finalizeEvent (bidPayload askEv b (invoice resp) e3 s3) (expertPrivkey s3)
  in
  ∃ s',
    resume t (RPublished results) e s = Some (s', [], None) ∧
    (true ∉ results → s' = s) ∧
    (true ∈ results →
       activeBids s' = <[ev_id payloadEv := length (heap s)]> (activeBids s) ∧
       (∃ bidEv,
          heap s' =
            heap s ++
              [mkActiveBid askEv bidEv payloadEv (ev_pubkey askEv)
                 (payment_hash resp) (now_ms e / 1000) (length (subs s))
                 (length (timers s)) b (Some []) (ev_id payloadEv)]) ∧
       subs s' =
         subs s ++
           [mkSub (questionRelays s)
              [mkFilter [20177] None None None (Some [ev_id payloadEv])]
              (OnQuestion (ev_id payloadEv) (length (timers s))) false] ∧
       timers s' =
         timers s ++
           [mkTimer (bidTimeout s * 1000) (length (subs s)) (ev_id payloadEv)
              Pending]).
Proof.
  intros Ht payloadEv.
  destruct (handleAskEvent_invoiced_cases askEv b sk (Resolved resp) e3 s3)
    as [Hc | (resp' & key & enc & [= <-] & _ & _ & Hc)];
    rewrite Hc in Ht; simpl in Ht; [discriminate|].
  injection Ht as <-. simpl. unfold handleAskEvent_published.
  case_bool_decide as Hs; rewrite successful_positive in Hs.
  - eexists. split; [reflexivity|]. split; [done|]. intros _.
    unfold setupQuestionSubscription; simpl.
    split; [reflexivity|]. split; [by eexists|]. done.
  - exists s. split; [reflexivity|]. split; done.
Qed.

(** ** Arming and expiry *)

Lemma setupQuestionSubscription_arms (askEv bidEv payloadEv : Event)
    (hash : string) (b : Bid) (e : Env) (s : State) :
  is_armed (setupQuestionSubscription askEv bidEv payloadEv hash b e s)
    (ev_id payloadEv) (length (heap s)) (length (subs s)) (length (timers s)).
Proof.
  unfold is_armed, setupQuestionSubscription; simpl.
  eexists _, _, _. split; [apply lookup_insert_eq|].
  split; [apply list_lookup_middle; reflexivity|].
  do 3 (split; [reflexivity|]).
  split; [apply list_lookup_middle; reflexivity|].
  do 2 (split; [reflexivity|]). split; [by left|].
  split; [apply list_lookup_middle; reflexivity|]. done.
Qed.

Lemma setupFollowupSubscription_arms (answerId : string) (ref : nat)
    (s : State) :
  is_Some (heap s !! ref) →
  is_armed (setupFollowupSubscription answerId ref s) answerId ref
    (length (subs s)) (length (timers s)).
Proof.
  intros [ab Hab]. unfold is_armed, setupFollowupSubscription; simpl.
  rewrite Hab. eexists _, _, _. split; [apply lookup_insert_eq|].
  split; [apply list_lookup_insert_eq; by eapply lookup_lt_Some|].
  do 3 (split; [reflexivity|]).
  split; [apply list_lookup_middle; reflexivity|].
  do 2 (split; [reflexivity|]). split; [by right|].
  split; [apply list_lookup_middle; reflexivity|]. done.
Qed.

(** C8: when the timer of an armed conversation fires, the subscription of
    the conversation is closed and its registry entry is removed; the expiry
    makes no call to the outside, so nothing is published, and starts no
    handler. *)
Theorem timeout_removes_conversation (m : Machine) (key : string)
    (ref sub timeout : nat) :
  is_armed (mem m) key ref sub timeout →
  let m' := step (InTimer timeout) m in
  activeBids (mem m') = delete key (activeBids (mem m)) ∧
  activeBids (mem m') !! key = None ∧
  (∃ sb, subs (mem m') !! sub = Some sb ∧ sub_closed sb = true) ∧
  (∃ t, timers (mem m') !! timeout = Some t ∧ t_state t = Fired) ∧
  trace m' = trace m ∧
  pending m' = pending m.
Proof.
  intros (ab & sb & t & Hreg & Hobj & Hctx & Hsub & Htid & Hsb & Hopen & Hflt
          & Hcb & Ht & Hpending & Htsub & Htkey).
  simpl. unfold fire_timer. rewrite Ht, Hpending, Htsub, Htkey. simpl.
  split; [reflexivity|]. split; [apply lookup_delete_eq|].
  split.
  - rewrite Hsb. eexists.
    split; [apply list_lookup_insert_eq; by eapply lookup_lt_Some|].
    reflexivity.
  - split; [|done]. eexists.
    split; [apply list_lookup_insert_eq; by eapply lookup_lt_Some|].
    reflexivity.
Qed.

(** ** Validation of a question *)

Lemma find_tag_first (name : string) (pre post : list Tag) (tag : Tag) :
  Forall (λ t, t !! 0%nat ≠ Some name) pre →
  tag !! 0%nat = Some name →
  find_tag name (pre ++ tag :: post) = Some tag.
Proof.
  intros Hpre Htag. unfold find_tag.
  induction Hpre as [|t pre Ht _ IH]; simpl.
  - by rewrite bool_decide_eq_true_2.
  - by rewrite bool_decide_eq_false_2.
Qed.

Lemma find_tag_none (name : string) (tags : list Tag) :
  Forall (λ t, t !! 0%nat ≠ Some name) tags → find_tag name tags = None.
Proof.
  intros Hall. unfold find_tag.
  induction Hall as [|t tags Ht _ IH]; simpl; [done|].
  by rewrite bool_decide_eq_false_2.
Qed.

(** C10: a question is checked against the context id of the conversation
    through its first [e] tag only. When that tag does not carry the context
    id, or when the event has no [e] tag, the question is dropped without any
    call, whatever the tags that follow, a second [e] tag with the right id
    included. *)
Theorem first_e_tag_decides (qev : Event) (ref : nat) (s : State)
    (ab : ActiveBid) :
  heap s !! ref = Some ab →
  (∀ pre eTag post,
     ev_tags qev = pre ++ eTag :: post →
     Forall (λ t, t !! 0%nat ≠ Some "e"%string) pre →
     eTag !! 0%nat = Some "e"%string →
     eTag !! 1%nat ≠ Some (contextId ab) →
     handleQuestionEvent qev ref s = (s, [], None))
  ∧ (Forall (λ t, t !! 0%nat ≠ Some "e"%string) (ev_tags qev) →
     handleQuestionEvent qev ref s = (s, [], None)).
Proof.
  intros Hab. split.
  - intros pre eTag post Htags Hpre Hname Hval.
    unfold handleQuestionEvent. rewrite Hab.
    case_bool_decide; [done|].
    unfold tags_context. rewrite Htags, (find_tag_first _ _ _ _ Hpre Hname).
    by rewrite bool_decide_eq_false_2.
  - intros Hnone. unfold handleQuestionEvent. rewrite Hab.
    case_bool_decide; [done|].
    unfold tags_context. by rewrite (find_tag_none _ _ Hnone).
Qed.

(** ** Payment before answer *)

Lemma publish_answer_after_payment (qev : Event) (ref : nat) (q : Question)
    (a : Answer) (inv hash : option string) (e : Env) (s : State) :
  Forall after_payment (publish_answer qev ref q a inv hash e s).1.2
  ∧ ∀ t, (publish_answer qev ref q a inv hash e s).2 = Some t → answering t.
Proof.
  destruct (publish_answer_cases qev ref q a inv hash e s)
    as [Hp | (? & ? & ? & _ & _ & _ & Hp)]; rewrite Hp; simpl.
  - split; [constructor | discriminate].
  - split; [by repeat constructor | by intros t [= <-]].
Qed.

Lemma resume_answering (t : Task) (r : Response) (e : Env) (s s' : State)
    (effs : list Effect) (t' : option Task) :
  answering t →
  resume t r e s = Some (s', effs, t') →
  Forall after_payment effs ∧ ∀ u, t' = Some u → answering u.
Proof.
  intros Ht Hres. destruct t; try done; destruct r; try discriminate;
    simpl in Hres; injection Hres as Hout;
    pose proof (f_equal (λ o, o.1.2) Hout) as Heffs;
    pose proof (f_equal (λ o, o.2) Hout) as Htask;
    simpl in Heffs, Htask; subst effs t'.
  - destruct (handleQuestionEvent_answered_cases questionEvent activeBid q r
                e s)
      as [Hc | [(a & ab & n & -> & _ & _ & _ & Hc) | (a & -> & _ & Hc)]];
      rewrite Hc.
    + split; [constructor | discriminate].
    + split; [by repeat constructor | by intros u [= <-]].
    + apply publish_answer_after_payment.
  - destruct (handleQuestionEvent_invoiced_cases questionEvent activeBid q a
                r e s) as [Hc | (resp & -> & Hc)]; rewrite Hc.
    + split; [constructor | discriminate].
    + apply publish_answer_after_payment.
  - destruct (handleQuestionEvent_published_effects questionEvent activeBid
                q a inv hash signedAnswerEvent results s) as [-> ->].
    split; [constructor | discriminate].
Qed.

Lemma unfolds_answering (ot : option Task) (rs : list Response)
    (effs : list Effect) :
  unfolds ot rs effs →
  (∀ t, ot = Some t → answering t) →
  Forall after_payment effs.
Proof.
  induction 1 as [|t r e s s' effs t' rs effs' Hres _ IH]; intros Hans.
  - constructor.
  - destruct (resume_answering t r e s s' effs t' (Hans t eq_refl) Hres)
      as [Heffs Hnext].
    apply Forall_app. split; [done | by apply IH].
Qed.

Lemma unfolds_finished (rs : list Response) (effs : list Effect) :
  unfolds None rs effs → rs = [] ∧ effs = [].
Proof. by inversion 1. Qed.

(** C1: take any question handed to [handleQuestionEvent] for a conversation
    and follow the handler to wherever it gets, under any scheduling and any
    responses. The wallet is asked about settlement only once the preimage
    of the decrypted payload has been found to hash to the payment hash of
    the conversation, and about that hash. An event is published only if
    that check passed and the wallet then reported a positive [settled_at];
    it is an answer event. If the preimage check fails, the handler stops
    with no call at all; if the wallet does not report a settlement, it
    stops with no call after the lookup. *)
Theorem payment_required (qev : Event) (ref : nat) (s s1 : State)
    (effs0 effs : list Effect) (ot : option Task) (rs : list Response) :
  handleQuestionEvent qev ref s = (s1, effs0, ot) →
  unfolds ot rs effs →
  (∀ h, CallLookupInvoice h ∈ effs0 ++ effs →
     payment_proved qev ref s h ∧ effs0 = [CallLookupInvoice h]
     ∧ Forall (λ f, is_lookup f = false) effs)
  ∧ (∀ relays ev, Publish relays ev ∈ effs0 ++ effs →
       ev_kind ev = 20178 ∧
       (∃ h, payment_proved qev ref s h ∧ effs0 = [CallLookupInvoice h]) ∧
       (∃ r rs', rs = r :: rs' ∧ settled r) ∧
       Publish relays ev ∈ effs)
  ∧ ((∀ h, ¬ payment_proved qev ref s h) →
       ot = None ∧ effs0 = [] ∧ effs = [])
  ∧ (∀ r rs', rs = r :: rs' → ¬ settled r → effs = []).
Proof.
  intros Hq Hun.
  destruct (handleQuestionEvent_cases qev ref s)
    as [Hc | (ab & payload & pre & Hab & _ & _ & Hdec & Hpre & _ & Hm & Hc)];
    rewrite Hc in Hq; injection Hq as <- <- <-.
  { apply unfolds_finished in Hun as [-> ->]. simpl.
    split; [|split; [|split]]; try done.
    - intros h Hin. by apply elem_of_nil in Hin.
    - intros relays ev Hin. by apply elem_of_nil in Hin. }
  assert (payment_proved qev ref s (paymentHash ab)) as Hproved.
  { unfold preimage_matches in Hm.
    destruct (hexToBytes pre) as [bytes|] eqn:Hhex; [|discriminate].
    injection Hm as Hm. apply bool_decide_eq_true in Hm.
    by exists ab, payload, pre, bytes. }
  assert (∀ h, CallLookupInvoice h ∈ [CallLookupInvoice (paymentHash ab)]
               → h = paymentHash ab) as Honly.
  { intros h Hin. apply list_elem_of_singleton in Hin. by injection Hin. }
  inversion Hun as [|t r e s2 s2' effsA t' rs0 effsB Hres Hrest]; subst.
  { rewrite app_nil_r. split; [|split; [|split]].
    - intros h Hin. by rewrite (Honly h Hin).
    - intros relays ev Hin. apply list_elem_of_singleton in Hin.
      discriminate.
    - intros Hno. by destruct (Hno _ Hproved).
    - discriminate. }
  destruct r as [| |r| |]; try discriminate. simpl in Hres.
  injection Hres as Hout.
  destruct (handleQuestionEvent_looked_up_cases qev ref payload pre r s2)
    as [Hl | (ab2 & t & -> & Hpos & _ & Hl)]; rewrite Hl in Hout;
    injection Hout as <- <- <-.
  { apply unfolds_finished in Hrest as [-> ->]. simpl.
    split; [|split; [|split]].
    - intros h Hin. by rewrite (Honly h Hin).
    - intros relays ev Hin. apply list_elem_of_singleton in Hin.
      discriminate.
    - intros Hno. by destruct (Hno _ Hproved).
    - done. }
  assert (Forall after_payment effsB) as Hafter.
  { eapply unfolds_answering; [exact Hrest|]. by intros u [= <-]. }
  assert (settled (RLookup (Resolved (mkLookupResponse (Some t))))) as Hset.
  { by exists t. }
  split; [|split; [|split]].
  - intros h Hin. simpl in Hin.
    apply elem_of_cons in Hin as [[= ->] | Hin].
    + split; [done|]. split; [done|]. constructor; [done|].
      eapply Forall_impl; [exact Hafter|]. by intros [].
    + apply elem_of_cons in Hin as [[=] | Hin].
      rewrite Forall_forall in Hafter. by apply Hafter in Hin.
  - intros relays ev Hin. simpl in Hin.
    apply elem_of_cons in Hin as [[=] | Hin].
    apply elem_of_cons in Hin as [[=] | Hin].
    rewrite Forall_forall in Hafter. pose proof (Hafter _ Hin) as Hk.
    split; [exact Hk|]. split; [by eexists|].
    split; [by eexists _, _|]. simpl. by right.
  - intros Hno. by destruct (Hno _ Hproved).
  - intros r rs' [= <- <-] Hns. by destruct Hns.
Qed.

(** ** What the last segment and the callbacks look at *)

(** The end of a turn does not depend on how the publication went. *)
Lemma handleQuestionEvent_published_any_results (qev : Event) (ref : nat)
    (q : Question) (a : Answer) (inv hash : option string) (answerEv : Event)
    (results results' : list bool) (s : State) :
  handleQuestionEvent_published qev ref q a inv hash answerEv results s
  = handleQuestionEvent_published qev ref q a inv hash answerEv results' s.
Proof. reflexivity. Qed.

(** The callback of the bid subscription drops a question when the entry
    is not in the registry. *)
Lemma onevent_question_unregistered (key : string) (timeout sub : nat)
    (qev : Event) (s : State) :
  activeBids s !! key = None →
  onevent_question key timeout sub qev s = (s, [], None).
Proof. intros Hnone. unfold onevent_question. by rewrite Hnone. Qed.

(** The callback of the follow-up subscription handles a question whether
    the entry is in the registry or not. *)
Lemma onevent_followup_unregistered (key : string) (ref timeout sub : nat)
    (qev : Event) (s : State) :
  onevent_followup key ref timeout sub qev s
  = handleQuestionEvent qev ref
      (set_activeBids (λ m, delete key m)
         (clearTimeout timeout (close_sub sub s))).
Proof. reflexivity. Qed.

(** ** Turns on the machine *)

Lemma step_resume (m : Machine) (task : nat) (t : Task) (r : Response)
    (e : Env) (s' : State) (effs : list Effect) (t' : option Task) :
  pending m !! task = Some (Some t) →
  resume t r e (mem m) = Some (s', effs, t') →
  step (InResume task r e) m =
    mkMachine s' (<[task := t']> (pending m)) (trace m ++ effs).
Proof. intros Hp Hr. simpl. by rewrite Hp, Hr. Qed.

Lemma run_idle (m : Machine) (task : nat) (inputs : list Input) :
  idle m task →
  Forall (λ i, ∃ r e, i = InResume task r e) inputs →
  run inputs m = m.
Proof.
  intros Hidle Hall. induction Hall as [|i inputs (r & e & ->) _ IH];
    [reflexivity|].
  unfold run in *. cbn [foldl].
  assert (step (InResume task r e) m = m) as ->; [|exact IH].
  simpl. by destruct Hidle as [-> | ->].
Qed.

Lemma update_object_lookup (ref : nat) (f : ActiveBid → ActiveBid)
    (s : State) (ab : ActiveBid) :
  heap s !! ref = Some ab →
  heap (update_object ref f s) !! ref = Some (f ab).
Proof.
  intros Hab. unfold update_object; simpl. rewrite Hab.
  apply list_lookup_insert_eq. by eapply lookup_lt_Some.
Qed.


Lemma run_cons (i : Input) (inputs : list Input) (m : Machine) :
  run (i :: inputs) m = run inputs (step i m).
Proof. reflexivity. Qed.

(** The question callbacks of an armed conversation: the entry is removed,
    the subscription closed and the timer cleared, then the question is
    handled. *)
Lemma onevent_armed (s : State) (key : string) (ref sub timeout : nat)
    (qev : Event) :
  is_armed s key ref sub timeout →
  onevent sub qev s =
    handleQuestionEvent qev ref
      (set_activeBids (λ m, delete key m)
         (clearTimeout timeout (close_sub sub s))).
Proof.
  intros (ab & sb & t & Hreg & _ & _ & _ & _ & Hsb & _ & _ & Hcb & _).
  unfold onevent. rewrite Hsb.
  destruct Hcb as [-> | ->]; [|reflexivity].
  unfold onevent_question. by rewrite Hreg.
Qed.

(** One resumption of the handler that occupies the last pending slot,
    given the outcome [Hc] of its segment. *)
Local Ltac resume_with Hc :=
  rewrite run_cons;
  erewrite step_resume;
    [| by apply list_lookup_middle
     | cbn [resume mem]; rewrite Hc; reflexivity ];
  cbn [pending trace mem]; rewrite insert_last.

(** The handler has stopped: what remains of the turn does nothing, and the
    calls made are fewer than the four of a complete turn. *)
Local Ltac stopped_short m :=
  rewrite (run_idle _ (length (pending m)));
    [ cbn [trace]; rewrite <- ?app_assoc; intros Htrace;
      apply app_inv_head in Htrace; discriminate
    | right; cbn [pending]; by apply list_lookup_middle
    | repeat constructor; by eexists _, _ ].


(** ** Stability of the memory *)

Lemma object_evolves_refl (ab : ActiveBid) : object_evolves ab ab.
Proof. by repeat split. Qed.

Lemma object_evolves_trans (a b c : ActiveBid) :
  object_evolves a b → object_evolves b c → object_evolves a c.
Proof.
  intros (? & ? & ? & ? & ? & ? & ?) (? & ? & ? & ? & ? & ? & ?).
  repeat split; try congruence. by etrans.
Qed.

Lemma sub_evolves_refl (sb : Sub) : sub_evolves sb sb.
Proof. by repeat split. Qed.

Lemma sub_evolves_trans (a b c : Sub) :
  sub_evolves a b → sub_evolves b c → sub_evolves a c.
Proof.
  intros (? & ? & ? & ?) (? & ? & ? & ?). repeat split; try congruence; auto.
Qed.

Lemma timer_evolves_refl (t : Timer) : timer_evolves t t.
Proof. by repeat split. Qed.

Lemma timer_evolves_trans (a b c : Timer) :
  timer_evolves a b → timer_evolves b c → timer_evolves a c.
Proof.
  intros (? & ? & ? & Hab) (? & ? & ? & Hbc). repeat split; try congruence.
  intros Ha. rewrite <- (Hab Ha). apply Hbc. by rewrite (Hab Ha).
Qed.

(** The entries of one store are where and what they were. *)
Local Ltac untouched :=
  intros ? x Hx; exists x;
  split;
    [ exact Hx
    | first [ apply object_evolves_refl | apply sub_evolves_refl
            | apply timer_evolves_refl ] ].

Lemma evolves_refl (s : State) : evolves s s.
Proof. repeat split; try done; untouched. Qed.

Lemma evolves_trans (a b c : State) : evolves a b → evolves b c → evolves a c.
Proof.
  intros (? & ? & ? & ? & ? & Hh1 & Hs1 & Ht1)
         (? & ? & ? & ? & ? & Hh2 & Hs2 & Ht2).
  repeat split; try congruence.
  - intros ref ab Hab. destruct (Hh1 _ _ Hab) as (ab1 & Hab1 & He1).
    destruct (Hh2 _ _ Hab1) as (ab2 & Hab2 & He2).
    exists ab2. split; [done | by eapply object_evolves_trans].
  - intros sub sb Hsb. destruct (Hs1 _ _ Hsb) as (sb1 & Hsb1 & He1).
    destruct (Hs2 _ _ Hsb1) as (sb2 & Hsb2 & He2).
    exists sb2. split; [done | by eapply sub_evolves_trans].
  - intros tid t Ht. destruct (Ht1 _ _ Ht) as (t1 & Ht1' & He1).
    destruct (Ht2 _ _ Ht1') as (t2 & Ht2' & He2).
    exists t2. split; [done | by eapply timer_evolves_trans].
Qed.

Lemma evolves_set_activeBids (f : gmap string nat → gmap string nat)
    (s : State) : evolves s (set_activeBids f s).
Proof. repeat split; try done; untouched. Qed.

Lemma evolves_set_subscriptions (f : list nat → list nat) (s : State) :
  evolves s (set_subscriptions f s).
Proof. repeat split; try done; untouched. Qed.

Lemma evolves_set_subs (f : list Sub → list Sub) (s : State) :
  (∀ sub sb, subs s !! sub = Some sb →
     ∃ sb', f (subs s) !! sub = Some sb' ∧ sub_evolves sb sb') →
  evolves s (set_subs f s).
Proof.
  intros Hf. repeat split; try done; untouched.
Qed.

Lemma evolves_set_timers (f : list Timer → list Timer) (s : State) :
  (∀ tid t, timers s !! tid = Some t →
     ∃ t', f (timers s) !! tid = Some t' ∧ timer_evolves t t') →
  evolves s (set_timers f s).
Proof.
  intros Hf. repeat split; try done; untouched.
Qed.

Lemma evolves_set_heap (f : list ActiveBid → list ActiveBid) (s : State) :
  (∀ ref ab, heap s !! ref = Some ab →
     ∃ ab', f (heap s) !! ref = Some ab' ∧ object_evolves ab ab') →
  evolves s (set_heap f s).
Proof.
  intros Hf. repeat split; try done; untouched.
Qed.

(** Writing one slot of a list with a value related to the old one. *)
Lemma lookup_insert_related {A : Type} (R : A → A → Prop) (l : list A)
    (i j : nat) (x y z : A) :
  (∀ a, R a a) → l !! i = Some x → R x y → l !! j = Some z →
  ∃ z', <[i := y]> l !! j = Some z' ∧ R z z'.
Proof.
  intros Hrefl Hi Hxy Hj. destruct (decide (i = j)) as [<- | Hne].
  - exists y. split.
    + apply list_lookup_insert_eq. by eapply lookup_lt_Some.
    + congruence.
  - exists z. split; [by rewrite list_lookup_insert_ne | apply Hrefl].
Qed.

Lemma evolves_close_sub (sid : nat) (s : State) : evolves s (close_sub sid s).
Proof.
  apply evolves_set_subs. intros sub sb Hsb.
  destruct (subs s !! sid) as [sb0|] eqn:Hsid.
  - eapply (lookup_insert_related sub_evolves); eauto using sub_evolves_refl.
    by repeat split.
  - exists sb. split; [done | apply sub_evolves_refl].
Qed.

Lemma evolves_clearTimeout (tid : nat) (s : State) :
  evolves s (clearTimeout tid s).
Proof.
  apply evolves_set_timers. intros i t Ht.
  destruct (timers s !! tid) as [t0|] eqn:Htid;
    [|exists t; split; [done | apply timer_evolves_refl]].
  destruct (t_state t0) eqn:Hst;
    try (exists t; split; [done | apply timer_evolves_refl]).
  eapply (lookup_insert_related timer_evolves);
    eauto using timer_evolves_refl.
  repeat split; simpl. by rewrite Hst.
Qed.

Lemma evolves_update_object (ref : nat) (f : ActiveBid → ActiveBid)
    (s : State) :
  (∀ ab, object_evolves ab (f ab)) → evolves s (update_object ref f s).
Proof.
  intros Hf. apply evolves_set_heap. intros i ab Hab.
  destruct (heap s !! ref) as [ab0|] eqn:Href.
  - eapply (lookup_insert_related object_evolves);
      eauto using object_evolves_refl.
  - exists ab. split; [done | apply object_evolves_refl].
Qed.

Lemma evolves_push_sub (sb : Sub) (s : State) :
  evolves s (set_subs (λ l, l ++ [sb]) s).
Proof.
  apply evolves_set_subs. intros sub sb0 Hsb. exists sb0.
  split; [by apply lookup_app_l_Some | apply sub_evolves_refl].
Qed.

Lemma evolves_push_timer (t : Timer) (s : State) :
  evolves s (set_timers (λ l, l ++ [t]) s).
Proof.
  apply evolves_set_timers. intros tid t0 Ht. exists t0.
  split; [by apply lookup_app_l_Some | apply timer_evolves_refl].
Qed.

Lemma evolves_push_object (ab : ActiveBid) (s : State) :
  evolves s (set_heap (λ h, h ++ [ab]) s).
Proof.
  apply evolves_set_heap. intros ref ab0 Hab. exists ab0.
  split; [by apply lookup_app_l_Some | apply object_evolves_refl].
Qed.

Lemma evolves_setupQuestionSubscription (askEv bidEv payloadEv : Event)
    (hash : string) (b : Bid) (e : Env) (s : State) :
  evolves s (setupQuestionSubscription askEv bidEv payloadEv hash b e s).
Proof.
  unfold setupQuestionSubscription, subscribeMany, setTimeout.
  eapply evolves_trans; [|apply evolves_set_activeBids].
  eapply evolves_trans; [|apply evolves_push_object].
  eapply evolves_trans; [|apply evolves_push_timer].
  apply evolves_push_sub.
Qed.

Lemma evolves_setupFollowupSubscription (answerId : string) (ref : nat)
    (s : State) :
  evolves s (setupFollowupSubscription answerId ref s).
Proof.
  unfold setupFollowupSubscription, subscribeMany, setTimeout.
  eapply evolves_trans; [|apply evolves_set_activeBids].
  eapply evolves_trans;
    [|apply (evolves_update_object ref
               (λ ab, mkActiveBid (askEvent ab) (bidEvent ab)
                        (bidPayloadEvent ab) (sessionPubkey ab)
                        (paymentHash ab) (timestamp ab) _ _ (bid ab)
                        (history ab) answerId));
      intros ab; by repeat split].
  eapply evolves_trans; [|apply evolves_push_timer].
  apply evolves_push_sub.
Qed.

Lemma evolves_start (e : Env) (s : State) : evolves s (start e s).
Proof.
  unfold start, subscribeMany.
  eapply evolves_trans; [|apply evolves_set_subscriptions].
  eapply evolves_trans; [|apply evolves_push_sub].
  apply evolves_push_sub.
Qed.

Lemma evolves_fire_timer (tid : nat) (s : State) :
  evolves s (fire_timer tid s).
Proof.
  unfold fire_timer.
  destruct (timers s !! tid) as [t|] eqn:Ht; [|apply evolves_refl].
  destruct (t_state t) eqn:Hst; try apply evolves_refl.
  eapply evolves_trans; [|apply evolves_set_activeBids].
  eapply evolves_trans; [|apply evolves_close_sub].
  apply evolves_set_timers. intros i t0 Ht0.
  eapply (lookup_insert_related timer_evolves);
    eauto using timer_evolves_refl.
  repeat split; simpl. by rewrite Hst.
Qed.

Lemma evolves_foldr {A : Type} (f : A → State → State) (l : list A)
    (s : State) :
  (∀ a st, evolves st (f a st)) → evolves s (foldr f s l).
Proof.
  intros Hf. induction l as [|a l IH]; simpl; [apply evolves_refl|].
  eapply evolves_trans; [exact IH | apply Hf].
Qed.

Lemma evolves_dispose (s : State) : evolves s (dispose s).1.
Proof.
  unfold dispose; simpl.
  eapply evolves_trans; [|apply evolves_set_activeBids].
  eapply evolves_trans; [|apply evolves_foldr].
  - eapply evolves_trans; [|apply evolves_set_subscriptions].
    apply evolves_foldr. intros; apply evolves_close_sub.
  - intros ab st. eapply evolves_trans; [apply evolves_close_sub|].
    apply evolves_clearTimeout.
Qed.

Lemma handleQuestionEvent_state (qev : Event) (ref : nat) (s : State) :
  (handleQuestionEvent qev ref s).1.1 = s.
Proof.
  destruct (handleQuestionEvent_cases qev ref s)
    as [Hc | (? & ? & ? & _ & _ & _ & _ & _ & _ & _ & Hc)]; by rewrite Hc.
Qed.

Lemma handleAskEvent_state (askEv : Event) (s : State) :
  (handleAskEvent askEv s).1.1 = s.
Proof. unfold handleAskEvent. by case_bool_decide. Qed.

Lemma evolves_onevent (sub : nat) (ev : Event) (s : State) :
  evolves s (onevent sub ev s).1.1.
Proof.
  unfold onevent. destruct (subs s !! sub) as [sb|]; [|apply evolves_refl].
  destruct (sub_onevent sb).
  - rewrite handleAskEvent_state. apply evolves_refl.
  - unfold onevent_question.
    destruct (activeBids s !! bidPayloadId); [|apply evolves_refl].
    rewrite handleQuestionEvent_state.
    eapply evolves_trans; [|apply evolves_set_activeBids].
    eapply evolves_trans; [apply evolves_close_sub|].
    apply evolves_clearTimeout.
  - unfold onevent_followup. rewrite handleQuestionEvent_state.
    eapply evolves_trans; [|apply evolves_set_activeBids].
    eapply evolves_trans; [apply evolves_close_sub|].
    apply evolves_clearTimeout.
Qed.

Lemma object_evolves_push_history (q : Question) (a : Answer)
    (ab : ActiveBid) : object_evolves ab (push_history q a ab).
Proof. repeat split; simpl. by apply prefix_app_r. Qed.

Lemma object_evolves_set_paymentHash (hash : string) (ab : ActiveBid) :
  object_evolves ab (set_paymentHash hash ab).
Proof. by repeat split. Qed.

(** Before its publication has settled, a handler leaves the memory as it
    finds it. *)
Lemma resume_state (t : Task) (r : Response) (e : Env) (s s' : State)
    (effs : list Effect) (t' : option Task) :
  resume t r e s = Some (s', effs, t') → ¬ settling t → s' = s.
Proof.
  intros Hres Hns.
  destruct t, r; try discriminate; simpl in Hres; try (by destruct Hns);
    injection Hres as Hout; apply (f_equal (λ o, o.1.1)) in Hout;
    simpl in Hout; subst s'.
  - by destruct r as [[b|]|].
  - by destruct (handleAskEvent_invoiced_cases askEv b bidPrivateKey r e s)
      as [Hc | (? & ? & ? & _ & _ & _ & Hc)]; rewrite Hc.
  - by destruct (handleQuestionEvent_looked_up_cases questionEvent activeBid
                   questionPayload preimage r s)
      as [Hc | (? & ? & _ & _ & _ & Hc)]; rewrite Hc.
  - destruct (handleQuestionEvent_answered_cases questionEvent activeBid q r
                e s)
      as [Hc | [(? & ? & ? & _ & _ & _ & _ & Hc) | (a & _ & _ & Hc)]];
      rewrite Hc; try done.
    by destruct (publish_answer_cases questionEvent activeBid q a None None
                   e s) as [Hp | (? & ? & ? & _ & _ & _ & Hp)]; rewrite Hp.
  - destruct (handleQuestionEvent_invoiced_cases questionEvent activeBid q a
                r e s) as [Hc | (resp & _ & Hc)]; rewrite Hc; [done|].
    by destruct (publish_answer_cases questionEvent activeBid q a
                   (Some (invoice resp)) (Some (payment_hash resp)) e s)
      as [Hp | (? & ? & ? & _ & _ & _ & Hp)]; rewrite Hp.
Qed.

Lemma evolves_resume (t : Task) (r : Response) (e : Env) (s s' : State)
    (effs : list Effect) (t' : option Task) :
  resume t r e s = Some (s', effs, t') → evolves s s'.
Proof.
  intros Hres.
  assert (settling t ∨ ¬ settling t) as [Hs | Hns]
    by (destruct t; simpl; auto);
    [|rewrite (resume_state _ _ _ _ _ _ _ Hres Hns); apply evolves_refl].
  destruct t; try done; destruct r; try discriminate; simpl in Hres;
    injection Hres as Hout; apply (f_equal (λ o, o.1.1)) in Hout;
    simpl in Hout; subst s'.
  - unfold handleAskEvent_published. case_bool_decide; simpl.
    + apply evolves_setupQuestionSubscription.
    + apply evolves_refl.
  - unfold handleQuestionEvent_published.
    destruct (truthy_string inv && positive_number (followup_sats a)); simpl.
    + eapply evolves_trans; [|apply evolves_setupFollowupSubscription].
      eapply evolves_trans;
        apply evolves_update_object;
        auto using object_evolves_push_history,
          object_evolves_set_paymentHash.
    + apply evolves_update_object, object_evolves_push_history.
Qed.

Lemma evolves_step (i : Input) (m : Machine) :
  evolves (mem m) (mem (step i m)).
Proof.
  destruct i as [e | | sub ev | tid | task r e]; unfold step.
  - apply evolves_start.
  - pose proof (evolves_dispose (mem m)) as Hd.
    by destruct (dispose (mem m)).
  - pose proof (evolves_onevent sub ev (mem m)) as Ho.
    by destruct (onevent sub ev (mem m)) as [[s effs] t].
  - apply evolves_fire_timer.
  - destruct (pending m !! task) as [[t|]|]; try apply evolves_refl.
    destruct (resume t r e (mem m)) as [[[s effs] t']|] eqn:Hres;
      [|apply evolves_refl].
    cbn [mem]. by eapply evolves_resume.
Qed.

Lemma evolves_run (inputs : list Input) (m : Machine) :
  evolves (mem m) (mem (run inputs m)).
Proof.
  revert m. induction inputs as [|i inputs IH]; intros m.
  - apply evolves_refl.
  - rewrite run_cons. eapply evolves_trans; [apply evolves_step | apply IH].
Qed.

(** X1: whatever the program goes through, a conversation object keeps the
    ask, the bid, the bid payload, the session public key and the creation
    time it was made with, and its history is only ever extended. *)
Theorem conversation_identity_is_stable (inputs : list Input) (m : Machine)
    (ref : nat) (ab : ActiveBid) :
  heap (mem m) !! ref = Some ab →
  ∃ ab',
    heap (mem (run inputs m)) !! ref = Some ab' ∧
    sessionPubkey ab' = sessionPubkey ab ∧
    askEvent ab' = askEvent ab ∧
    bidEvent ab' = bidEvent ab ∧
    bidPayloadEvent ab' = bidPayloadEvent ab ∧
    bid ab' = bid ab ∧
    timestamp ab' = timestamp ab ∧
    default [] (history ab) `prefix_of` default [] (history ab').
Proof.
  intros Hab.
  destruct (evolves_run inputs m) as (_ & _ & _ & _ & _ & Hheap & _).
  destruct (Hheap _ _ Hab) as (ab' & Hab' & ? & ? & ? & ? & ? & ? & ?).
  by exists ab'.
Qed.

(** A timer that has been cleared, or has fired, is never pending again:
    however the program continues, its firing changes nothing. *)
Lemma timer_stays_cancelled (inputs : list Input) (m : Machine)
    (tid : nat) (t : Timer) :
  timers (mem m) !! tid = Some t →
  t_state t ≠ Pending →
  step (InTimer tid) (run inputs m) = run inputs m
  ∧ ∃ t',
      timers (mem (run inputs m)) !! tid = Some t' ∧
      t_state t' = t_state t ∧ t_sub t' = t_sub t ∧ t_key t' = t_key t.
Proof.
  intros Ht Hst.
  destruct (evolves_run inputs m) as (_ & _ & _ & _ & _ & _ & _ & Htimers).
  destruct (Htimers _ _ Ht) as (t' & Ht' & _ & Hsub & Hkey & Hstate).
  specialize (Hstate Hst). split; [|by exists t'].
  destruct (run inputs m) as [s p tr]; simpl in *.
  unfold fire_timer. rewrite Ht'.
  destruct (t_state t') eqn:Hst'; [congruence| |]; reflexivity.
Qed.

(** X3: a handler or a wallet call that throws ends the handler on the spot,
    with no call and no change to the memory, at whichever [await] it
    happens; and before the outcome of its publication is known, no handler
    changes the memory at all. *)
Theorem failures_are_silent (t : Task) (r : Response) (e : Env) (s s' : State)
    (effs : list Effect) (t' : option Task) :
  resume t r e s = Some (s', effs, t') →
  (rejection r → s' = s ∧ effs = [] ∧ t' = None)
  ∧ (¬ settling t → s' = s).
Proof.
  intros Hres. split; [|by eapply resume_state].
  intros Hrej.
  destruct t, r as [[]|[]|[]|[]|]; try discriminate; try (by destruct Hrej);
    simpl in Hres; by injection Hres as <- <- <-.
Qed.

(** ** The calls of the bid pipeline *)

(** X4: the calls one ask can cause, under any scheduling and any responses,
    are a beginning of: the decision handler on the projection of the event,
    one invoice for the bid, one publication of a bid event. An event of
    another kind than 20174 causes none; the invoice is asked for only once
    the handler has returned a bid; the bid is published only once the
    wallet has returned the invoice; being handed the event changes nothing
    in the memory. *)
Theorem ask_pipeline_calls (askEv : Event) (s s1 : State)
    (effs0 effs : list Effect) (ot : option Task) (rs : list Response) :
  handleAskEvent askEv s = (s1, effs0, ot) →
  unfolds ot rs effs →
  s1 = s
  ∧ (ev_kind askEv ≠ 20174 → effs0 ++ effs = [])
  ∧ (effs0 ++ effs = []
     ∨ effs0 ++ effs = [CallOnAsk (ask_of_event askEv)]
     ∨ ∃ b rs',
         rs = RBid (Resolved (Some b)) :: rs' ∧
         (effs0 ++ effs =
            [CallOnAsk (ask_of_event askEv);
             CallMakeInvoice (js_mul (bid_sats b) (number 1000))
               ("Bid for ask " +:+ ev_id askEv)]
          ∨ ∃ resp rs'' relays ev,
              rs' = RInvoice (Resolved resp) :: rs'' ∧
              effs0 ++ effs =
                [CallOnAsk (ask_of_event askEv);
                 CallMakeInvoice (js_mul (bid_sats b) (number 1000))
                   ("Bid for ask " +:+ ev_id askEv);
                 Publish relays ev] ∧
              ev_kind ev = 20175 ∧
              ev_tags ev = [["e"; ev_id askEv]])).
Proof.
  intros Hq Hun. unfold handleAskEvent in Hq.
  case_bool_decide as Hkind; injection Hq as <- <- <-.
  { apply unfolds_finished in Hun as [-> ->]. by repeat split; auto. }
  split; [done|]. split; [done|]. simpl.
  inversion Hun as [|t r e s2 s2' effsA t' rs0 effsB Hres Hrest]; subst;
    [by right; left|].
  destruct r as [r| | | |]; try discriminate. simpl in Hres.
  destruct r as [[b|]|]; injection Hres as <- <- <-;
    try (apply unfolds_finished in Hrest as [-> ->]; by right; left).
  right; right. exists b, rs0. split; [done|]. simpl.
  inversion Hrest as [|t r e3 s3 s3' effsC t'' rs1 effsD Hres3 Hrest3]; subst;
    [by left|].
  destruct r as [|r| | |]; try discriminate. simpl in Hres3.
  injection Hres3 as Hout.
  destruct (handleAskEvent_invoiced_cases askEv b (fresh_sk e) r e3 s3)
    as [Hc | (resp & key & enc & -> & _ & _ & Hc)]; rewrite Hc in Hout;
    injection Hout as <- <- <-.
  { apply unfolds_finished in Hrest3 as [-> ->]. by left. }
  right. exists resp, rs1. eexists _, _. split; [done|].
  assert (effsD = []) as ->; [|by repeat split].
  inversion Hrest3 as [|t r e4 s4 s4' effsE t3 rs2 effsF Hres4 Hrest4]; subst;
    [done|].
  destruct r; try discriminate. simpl in Hres4. injection Hres4 as Hout.
  destruct (handleAskEvent_published_effects askEv b
              (finalizeEvent (bidEventTemplate askEv (fresh_sk e) enc e3)
                 (fresh_sk e))
              (finalizeEvent (bidPayload askEv b (invoice resp) e3 s3)
                 (expertPrivkey s3))
              (payment_hash resp) results e4 s4) as [Heffs Htask].
  rewrite Hout in Heffs, Htask. simpl in Heffs, Htask. subst.
  by apply unfolds_finished in Hrest4 as [-> ->].
Qed.

(** ** The answer *)

(** X5: every event the question pipeline publishes goes to the question
    relays, has kind 20178 and the single tag [e] = id of the question, and
    is signed by the key drawn for this answer. Its content is the NIP-44
    ciphertext, under the conversation key of the expert's secret and the
    session public key, of the payload made of the handler's content and
    the handler's tags, followed by one [invoice] tag exactly when a
    follow-up invoice was minted and its string is not empty. *)
Theorem answer_events (t : Task) (r : Response) (e : Env) (s s' : State)
    (effs : list Effect) (t' : option Task) (relays : list string)
    (ev : Event) :
  answering t →
  resume t r e s = Some (s', effs, t') →
  Publish relays ev ∈ effs →
  ∃ qev ref q a inv hash ab key,
    ((t = AwaitAnswer qev ref q ∧ r = RAnswer (Resolved a) ∧
      positive_number (followup_sats a) = false ∧ inv = None ∧ hash = None)
     ∨ (∃ resp, t = AwaitFollowupInvoice qev ref q a ∧
          r = RInvoice (Resolved resp) ∧ inv = Some (invoice resp) ∧
          hash = Some (payment_hash resp))) ∧
    effs = [Publish relays ev] ∧
    t' = Some (AwaitAnswerPublish qev ref q a inv hash ev) ∧
    heap s !! ref = Some ab ∧
    relays = questionRelays s ∧
    ev_kind ev = 20178 ∧
    ev_tags ev = [["e"; ev_id qev]] ∧
    ev_created_at ev = now_ms e / 1000 ∧
    ev_pubkey ev = getPublicKey (fresh_sk e) ∧
    ev_sig ev = schnorrSign (ev_id ev) (fresh_sk e) ∧
    getConversationKey (expertPrivkey s) (sessionPubkey ab) = Some key ∧
    nip44_encrypt
      (stringifyAnswerPayload
         (mkAnswerPayload (ans_content a)
            (default [] (ans_tags a)
               ++ match inv with
                  | Some i => if decide (i = ""%string) then []
                              else [["invoice"; i]]
                  | None => []
                  end)))
      key (fresh_nonce e)
    = Some (ev_content ev).
Proof.
  intros Ht Hres Hin.
  assert (∀ qev ref q a inv hash,
            Publish relays ev ∈ (publish_answer qev ref q a inv hash e s).1.2 →
            ∃ ab key,
              (publish_answer qev ref q a inv hash e s).1.2
                = [Publish relays ev] ∧
              (publish_answer qev ref q a inv hash e s).2
                = Some (AwaitAnswerPublish qev ref q a inv hash ev) ∧
              heap s !! ref = Some ab ∧ relays = questionRelays s ∧
              ev_kind ev = 20178 ∧ ev_tags ev = [["e"; ev_id qev]] ∧
              ev_created_at ev = now_ms e / 1000 ∧
              ev_pubkey ev = getPublicKey (fresh_sk e) ∧
              ev_sig ev = schnorrSign (ev_id ev) (fresh_sk e) ∧
              getConversationKey (expertPrivkey s) (sessionPubkey ab)
                = Some key ∧
              nip44_encrypt (stringifyAnswerPayload (answerPayload a inv)) key
                (fresh_nonce e) = Some (ev_content ev)) as Hpub.
  { intros qev ref q a inv hash Hp.
    destruct (publish_answer_cases qev ref q a inv hash e s)
      as [Hc | (ab & key & enc & Hab & Hkey & Henc & Hc)];
      rewrite Hc in Hp |- *; simpl in Hp.
    { by apply elem_of_nil in Hp. }
    apply list_elem_of_singleton in Hp. injection Hp as -> ->.
    exists ab, key. by repeat split. }
  assert (∀ a inv,
            answerPayload a inv =
              mkAnswerPayload (ans_content a)
                (default [] (ans_tags a)
                   ++ match inv with
                      | Some i => if decide (i = ""%string) then []
                                  else [["invoice"; i]]
                      | None => []
                      end)) as Hpayload.
  { intros a inv. unfold answerPayload, truthy_string. f_equal. f_equal.
    destruct inv as [i|]; [|reflexivity]. simpl.
    by case_bool_decide; case_decide. }
  destruct t; try done; destruct r; try discriminate; simpl in Hres;
    injection Hres as Hout;
    pose proof (f_equal (λ o, o.1.2) Hout) as Heffs;
    pose proof (f_equal (λ o, o.2) Hout) as Htask;
    simpl in Heffs, Htask; subst effs t'.
  - destruct (handleQuestionEvent_answered_cases questionEvent activeBid q r
                e s)
      as [Hc | [(a & ab & n & -> & _ & _ & _ & Hc) | (a & -> & Hneg & Hc)]];
      rewrite Hc in Hin |- *; simpl in Hin.
    + by apply elem_of_nil in Hin.
    + apply list_elem_of_singleton in Hin. discriminate.
    + destruct (Hpub _ _ _ _ _ _ Hin)
        as (ab & key & He & Hn & Hab & Hr & Hk & Htag & Hc' & Hpk & Hsig
            & Hkey & Henc).
      rewrite Hpayload in Henc.
      exists questionEvent, activeBid, q, a, None, None, ab, key.
      split; [left; by repeat split|]. by repeat split.
  - destruct (handleQuestionEvent_invoiced_cases questionEvent activeBid q a
                r e s) as [Hc | (resp & -> & Hc)];
      rewrite Hc in Hin |- *; simpl in Hin.
    + by apply elem_of_nil in Hin.
    + destruct (Hpub _ _ _ _ _ _ Hin)
        as (ab & key & He & Hn & Hab & Hr & Hk & Htag & Hc' & Hpk & Hsig
            & Hkey & Henc).
      rewrite Hpayload in Henc.
      exists questionEvent, activeBid, q, a, (Some (invoice resp)),
        (Some (payment_hash resp)), ab, key.
      split; [right; exists resp; by repeat split|]. by repeat split.
  - destruct (handleQuestionEvent_published_effects questionEvent activeBid
                q a inv hash signedAnswerEvent results s) as [Hnil _].
    rewrite Hnil in Hin. by apply elem_of_nil in Hin.
Qed.

(** X6: the preimage is read from the first [preimage] tag of the payload
    only. When the payload has no such tag, when that tag has no value or
    an empty one, or when its value does not hash to the payment hash of the
    conversation, the question is dropped without any call, a later
    [preimage] tag with the right value notwithstanding. *)
Theorem first_preimage_tag_decides (qev : Event) (ref : nat) (s : State)
    (ab : ActiveBid) (payload : QuestionPayload) :
  heap s !! ref = Some ab →
  decrypt_question qev ab s = Some payload →
  (Forall (λ t, t !! 0%nat ≠ Some "preimage"%string) (qp_tags payload) →
   handleQuestionEvent qev ref s = (s, [], None))
  ∧ (∀ pre tag post,
       qp_tags payload = pre ++ tag :: post →
       Forall (λ t, t !! 0%nat ≠ Some "preimage"%string) pre →
       tag !! 0%nat = Some "preimage"%string →
       (tag !! 1%nat = None ∨ tag !! 1%nat = Some ""%string
        ∨ ∃ v, tag !! 1%nat = Some v ∧
               preimage_matches v (paymentHash ab) ≠ Some true) →
       handleQuestionEvent qev ref s = (s, [], None)).
Proof.
  intros Hab Hdec. split.
  - intros Hnone. unfold handleQuestionEvent. rewrite Hab.
    case_bool_decide; [done|].
    destruct (tags_context qev ab); [|done]. simpl. rewrite Hdec.
    unfold extract_preimage. by rewrite (find_tag_none _ _ Hnone).
  - intros pre tag post Htags Hpre Hname Hval.
    unfold handleQuestionEvent. rewrite Hab.
    case_bool_decide; [done|].
    destruct (tags_context qev ab); [|done]. simpl. rewrite Hdec.
    unfold extract_preimage.
    rewrite Htags, (find_tag_first _ _ _ _ Hpre Hname).
    destruct Hval as [Hv | [Hv | (v & Hv & Hm)]]; rewrite Hv;
      [done|reflexivity|].
    destruct (bool_decide (v = ""%string)); simpl; [done|].
    destruct (preimage_matches v (paymentHash ab)) as [[]|];
      [by destruct Hm | done | done].
Qed.

(** ** The life of an armed conversation *)

Lemma clearTimeout_pending (tid : nat) (s : State) (t : Timer) :
  timers s !! tid = Some t → t_state t = Pending →
  timers (clearTimeout tid s) !! tid =
    Some (mkTimer (t_delay_ms t) (t_sub t) (t_key t) Cleared).
Proof.
  intros Ht Hst. unfold clearTimeout; simpl. rewrite Ht, Hst.
  apply list_lookup_insert_eq. by eapply lookup_lt_Some.
Qed.

Lemma close_sub_lookup (sid : nat) (s : State) (sb : Sub) :
  subs s !! sid = Some sb →
  subs (close_sub sid s) !! sid =
    Some (mkSub (sub_relays sb) (sub_filters sb) (sub_onevent sb) true).
Proof.
  intros Hsb. unfold close_sub; simpl. rewrite Hsb.
  apply list_lookup_insert_eq. by eapply lookup_lt_Some.
Qed.

(** X7: whatever event is handed to the question callback of an armed
    conversation, valid or not, the conversation is consumed by it: its
    registry entry is deleted, its subscription closed and its timer
    cleared, so that the timer firing later changes nothing. The event then
    either passes every check, and the wallet is asked about the payment
    hash, or it is dropped with no call and no handler left; an event of
    another kind than 20177 is always dropped. *)
Theorem question_consumes_conversation (s : State) (key : string)
    (ref sub timeout : nat) (qev : Event) :
  is_armed s key ref sub timeout →
  ∃ s' ab,
    (onevent sub qev s).1.1 = s' ∧
    heap s !! ref = Some ab ∧
    activeBids s' = delete key (activeBids s) ∧
    heap s' = heap s ∧
    (∃ sb, subs s' !! sub = Some sb ∧ sub_closed sb = true) ∧
    (∃ t, timers s' !! timeout = Some t ∧ t_state t = Cleared) ∧
    fire_timer timeout s' = s' ∧
    (onevent sub qev s = (s', [], None)
     ∨ ∃ payload pre,
         onevent sub qev s =
           (s', [CallLookupInvoice (paymentHash ab)],
            Some (AwaitLookup qev ref payload pre))) ∧
    (ev_kind qev ≠ 20177 → onevent sub qev s = (s', [], None)).
Proof.
  intros Harmed. rewrite (onevent_armed _ _ _ _ _ qev Harmed).
  destruct Harmed as (ab & sb & t & Hreg & Hobj & _ & _ & _ & Hsb & _ & _ & _
                      & Ht & Hpending & _).
  set (s' := set_activeBids (λ m, delete key m)
               (clearTimeout timeout (close_sub sub s))).
  assert (timers s' !! timeout =
            Some (mkTimer (t_delay_ms t) (t_sub t) (t_key t) Cleared))
    as Hcleared by (by apply (clearTimeout_pending timeout (close_sub sub s))).
  exists s', ab. rewrite handleQuestionEvent_state.
  split; [done|]. split; [done|]. split; [done|]. split; [done|].
  split; [eexists; split; [by apply close_sub_lookup | done]|].
  split; [by eexists|]. split.
  { unfold fire_timer. by rewrite Hcleared. }
  split.
  - destruct (handleQuestionEvent_cases qev ref s')
      as [Hc | (ab' & payload & pre & Hab' & _ & _ & _ & _ & _ & _ & Hc)];
      [by left|].
    right. exists payload, pre. rewrite Hc.
    assert (heap s' !! ref = Some ab) as Hsame by done.
    rewrite Hsame in Hab'. by injection Hab' as <-.
  - intros Hkind. unfold handleQuestionEvent.
    destruct (heap s' !! ref); [|done]. by rewrite bool_decide_eq_true_2.
Qed.

Lemma question_consumed_state (s : State) (key : string)
    (ref sub timeout : nat) (qev : Event) :
  is_armed s key ref sub timeout →
  activeBids (onevent sub qev s).1.1 = delete key (activeBids s)
  ∧ heap (onevent sub qev s).1.1 = heap s.
Proof.
  intros Harmed. rewrite (onevent_armed _ _ _ _ _ qev Harmed).
  by rewrite handleQuestionEvent_state.
Qed.

(** X2: once an event has been handed to the question callback of an armed
    conversation, the expiry of that turn is cancelled for good: however the
    program continues, the firing of its timer changes nothing, neither the
    memory nor the handlers in flight nor the calls made. *)
Theorem question_cancels_expiry (m : Machine) (key : string)
    (ref sub timeout : nat) (qev : Event) (inputs : list Input) :
  is_armed (mem m) key ref sub timeout →
  step (InTimer timeout) (run inputs (step (InEvent sub qev) m))
  = run inputs (step (InEvent sub qev) m).
Proof.
  intros Harmed.
  destruct Harmed as (ab & sb & t & Hrest).
  assert (is_armed (mem m) key ref sub timeout) as Harmed
    by (by exists ab, sb, t).
  destruct Hrest as (_ & _ & _ & _ & _ & _ & _ & _ & _ & Ht & Hpending & _).
  apply (timer_stays_cancelled inputs (step (InEvent sub qev) m) timeout
           (mkTimer (t_delay_ms t) (t_sub t) (t_key t) Cleared));
    [|discriminate].
  unfold step.
  pose proof (onevent_armed _ _ _ _ _ qev Harmed) as Ho.
  destruct (onevent sub qev (mem m)) as [[s1 effs] t1]. cbn [mem].
  apply (f_equal (λ o, o.1.1)) in Ho. rewrite handleQuestionEvent_state in Ho.
  simpl in Ho. subst s1.
  by apply (clearTimeout_pending timeout (close_sub sub (mem m))).
Qed.


(** X8: on the subscription opened for a bid, only one delivery counts: once
    an event has been handed to the callback of the armed conversation, any
    further events handed to the same callback leave the memory, the
    handlers in flight and the calls made exactly as they are. *)
Theorem bid_subscription_is_single_shot (m : Machine) (key : string)
    (ref sub timeout : nat) (qev : Event) (later : list Event) :
  is_armed (mem m) key ref sub timeout →
  sub_onevent <$> subs (mem m) !! sub = Some (OnQuestion key timeout) →
  run (map (InEvent sub) later) (step (InEvent sub qev) m)
  = step (InEvent sub qev) m.
Proof.
  intros Harmed Hcb.
  destruct (question_consumed_state (mem m) key ref sub timeout qev Harmed)
    as (Hreg & Hsub).
  remember (step (InEvent sub qev) m) as m1 eqn:Hm1.
  assert (activeBids (mem m1) !! key = None) as Hnone.
  { subst m1. unfold step.
    destruct (onevent sub qev (mem m)) as [[s1 effs] t] eqn:Ho.
    simpl in *. rewrite Hreg. apply lookup_delete_eq. }
  assert (sub_onevent <$> subs (mem m1) !! sub = Some (OnQuestion key timeout))
    as Hcb1.
  { destruct (subs (mem m) !! sub) as [sb|] eqn:Hsb; [|done].
    destruct (evolves_step (InEvent sub qev) m)
      as (_ & _ & _ & _ & _ & _ & Hsubs & _).
    destruct (Hsubs _ _ Hsb) as (sb' & Hsb' & _ & _ & Hsame & _).
    subst m1. rewrite Hsb'. simpl in *. congruence. }
  clear Hm1 Harmed Hcb Hreg Hsub.
  induction later as [|ev later IH]; [reflexivity|].
  simpl map. rewrite run_cons.
  assert (step (InEvent sub ev) m1 = m1) as ->; [|exact IH].
  unfold step, onevent.
  destruct (subs (mem m1) !! sub) as [sb|]; [|done].
  injection Hcb1 as ->. unfold onevent_question. rewrite Hnone.
  destruct m1. simpl. by rewrite app_nil_r.
Qed.

Lemma step_resume_refused (m : Machine) (task : nat) (t : Task)
    (r : Response) (e : Env) :
  pending m !! task = Some (Some t) →
  resume t r e (mem m) = None →
  step (InResume task r e) m = m.
Proof. intros Hp Hr. simpl. by rewrite Hp, Hr. Qed.

Lemma length_subs_close_sub (sid : nat) (s : State) :
  length (subs (close_sub sid s)) = length (subs s).
Proof.
  unfold close_sub; simpl. destruct (subs s !! sid); [|done].
  apply length_insert.
Qed.

Lemma length_timers_clearTimeout (tid : nat) (s : State) :
  length (timers (clearTimeout tid s)) = length (timers s).
Proof.
  unfold clearTimeout; simpl. destruct (timers s !! tid) as [t|]; [|done].
  destruct (t_state t); try done. apply length_insert.
Qed.

(** X9: a conversation is armed under [key]; one question is delivered and
    its turn runs to the end with an answer that asks for no follow-up: the
    wallet is asked about the payment, the handler is called with [q] and
    answers [a], the answer event is published. No invoice is minted. After
    the turn the conversation is out of the registry, which is otherwise as
    before; no subscription and no timer have been created; the object has
    the pair [(q, a)] appended to its history and keeps its payment hash and
    context id; the handler has finished. *)
Theorem turn_without_followup (m : Machine) (key : string)
    (ref sub timeout : nat) (ab : ActiveBid) (qev : Event)
    (r : LookupResponse) (a : Answer) (results : list bool) (e2 e3 e4 : Env)
    (h : string) (ask : Ask) (b : Bid) (q : Question)
    (hist : option (list QuestionAnswerPair)) (relays : list string)
    (answerEv : Event) :
  is_armed (mem m) key ref sub timeout →
  heap (mem m) !! ref = Some ab →
  let task := length (pending m) in
  let m' :=
    run [InEvent sub qev;
         InResume task (RLookup (Resolved r)) e2;
         InResume task (RAnswer (Resolved a)) e3;
         InResume task (RPublished results) e4] m in
  trace m' =
    trace m ++ [CallLookupInvoice h; CallOnQuestion ask b q hist;
                Publish relays answerEv] →
  positive_number (followup_sats a) = false ∧
  activeBids (mem m') = delete key (activeBids (mem m)) ∧
  length (subs (mem m')) = length (subs (mem m)) ∧
  length (timers (mem m')) = length (timers (mem m)) ∧
  pending m' = pending m ++ [None] ∧
  hist = history ab ∧
  ev_tags answerEv = [["e"; ev_id qev]] ∧
  ∃ ab',
    heap (mem m') !! ref = Some ab' ∧
    history ab' = Some (default [] (history ab) ++ [mkPair q a]) ∧
    paymentHash ab' = paymentHash ab ∧
    contextId ab' = contextId ab.
Proof.
  intros Harmed Hab task m' Htrace.
  subst m' task. revert Htrace. rewrite run_cons.
  remember (set_activeBids (λ m, delete key m)
              (clearTimeout timeout (close_sub sub (mem m)))) as s0 eqn:Hs0.
  assert (heap s0 !! ref = Some ab) as Hab0 by (by subst s0).
  assert (activeBids s0 = delete key (activeBids (mem m))) as Hreg0
    by (by subst s0).
  assert (length (subs s0) = length (subs (mem m))) as Hsubs0
    by (subst s0; apply length_subs_close_sub).
  assert (length (timers s0) = length (timers (mem m))) as Htimers0
    by (subst s0; apply (length_timers_clearTimeout _ (close_sub sub (mem m)))).
  assert (step (InEvent sub qev) m =
            let '(s, effs, t) := handleQuestionEvent qev ref s0 in
            mkMachine s
              (match t with Some _ => pending m ++ [t] | None => pending m end)
              (trace m ++ effs)) as ->.
  { simpl. by rewrite (onevent_armed _ _ _ _ _ qev Harmed), <- Hs0. }
  destruct (handleQuestionEvent_cases qev ref s0)
    as [Hc | (ab1 & payload & pre & Hab1 & _ & _ & _ & _ & _ & _ & Hc)];
    rewrite Hc.
  { rewrite (run_idle _ (length (pending m))).
    - simpl. intros Htrace. apply app_inv_head in Htrace. discriminate.
    - left. simpl. by apply lookup_ge_None.
    - repeat constructor; by eexists _, _. }
  rewrite Hab0 in Hab1. injection Hab1 as <-.
  destruct (handleQuestionEvent_looked_up_cases qev ref payload pre
              (Resolved r) s0)
    as [Hc2 | (ab2 & t & _ & _ & Hab2 & Hc2)]; resume_with Hc2.
  { stopped_short m. }
  rewrite Hab0 in Hab2. injection Hab2 as <-.
  set (q0 := mkQuestion (ev_id qev) (qp_content payload) pre
               (qp_tags payload)) in *.
  destruct (handleQuestionEvent_answered_cases qev ref q0 (Resolved a) e3 s0)
    as [Hc3 | [(a' & ab3 & n & [= <-] & Hab3 & Hn & Hpos & Hc3)
              | (a' & [= <-] & Hneg & Hc3)]].
  { resume_with Hc3. stopped_short m. }
  { (* a follow-up is asked for: the handler now awaits the wallet *)
    resume_with Hc3. rewrite run_cons.
    erewrite step_resume_refused;
      [|by apply list_lookup_middle | reflexivity].
    unfold run. cbn [foldl trace]. rewrite <- !app_assoc. intros Htrace.
    apply app_inv_head in Htrace. discriminate. }
  destruct (publish_answer_cases qev ref q0 a None None e3 s0)
    as [Hc4 | (ab4 & ckey & enc & Hab4 & _ & _ & Hc4)];
    rewrite <- Hc3 in Hc4; resume_with Hc4.
  { stopped_short m. }
  set (ev := finalizeEvent (answerEvent qev (fresh_sk e3) enc e3)
               (fresh_sk e3)) in *.
  assert (handleQuestionEvent_published qev ref q0 a None None ev results s0
          = (update_object ref (push_history q0 a) s0, [], None)) as Hc5
    by reflexivity.
  resume_with Hc5. unfold run. cbn [foldl mem trace pending].
  rewrite <- !app_assoc. cbn [app]. intros Htrace.
  apply app_inv_head in Htrace.
  injection Htrace as _ _ _ <- <- _ <-.
  split; [done|]. split; [done|].
  split; [by rewrite <- Hsubs0|]. split; [by rewrite <- Htimers0|].
  split; [done|]. split; [done|]. split; [done|].
  exists (push_history q0 a ab).
  split; [by apply update_object_lookup | done].
Qed.

(** ** Disposal *)

Lemma State_eq (s s' : State) :
  expertPrivkey s = expertPrivkey s' → askRelays s = askRelays s' →
  questionRelays s = questionRelays s' → hashtags s = hashtags s' →
  bidTimeout s = bidTimeout s' → heap s = heap s' →
  activeBids s = activeBids s' → subscriptions s = subscriptions s' →
  subs s = subs s' → timers s = timers s' → s = s'.
Proof. destruct s, s'; simpl; congruence. Qed.

Lemma clearTimeout_not_pending (tid : nat) (s : State) (t : Timer) :
  timers s !! tid = Some t →
  ∃ t', timers (clearTimeout tid s) !! tid = Some t' ∧ t_state t' ≠ Pending.
Proof.
  intros Ht. unfold clearTimeout; simpl. rewrite Ht.
  destruct (t_state t) eqn:Hst.
  - eexists. split; [apply list_lookup_insert_eq; by eapply lookup_lt_Some|].
    done.
  - exists t. split; [done | congruence].
  - exists t. split; [done | congruence].
Qed.

Lemma foldr_close_sub_closed (l : list nat) (s : State) (sid : nat)
    (sb : Sub) :
  sid ∈ l → subs s !! sid = Some sb →
  ∃ sb', subs (foldr close_sub s l) !! sid = Some sb' ∧ sub_closed sb' = true.
Proof.
  intros Hin Hsb. induction l as [|a l IH]; [by apply elem_of_nil in Hin|].
  simpl. apply elem_of_cons in Hin as [<- | Hin].
  - destruct (evolves_foldr close_sub l s evolves_close_sub)
      as (_ & _ & _ & _ & _ & _ & Hsubs & _).
    destruct (Hsubs _ _ Hsb) as (sb1 & Hsb1 & _).
    eexists. split; [by apply close_sub_lookup | done].
  - destruct (IH Hin) as (sb1 & Hsb1 & Hclosed).
    destruct (evolves_close_sub a (foldr close_sub s l))
      as (_ & _ & _ & _ & _ & _ & Hsubs & _).
    destruct (Hsubs _ _ Hsb1) as (sb2 & Hsb2 & _ & _ & _ & Hmono).
    exists sb2. auto.
Qed.

Lemma evolves_release (bidInfo : ActiveBid) (s : State) :
  evolves s (clearTimeout (timeoutId bidInfo)
               (close_sub (subscription bidInfo) s)).
Proof.
  eapply evolves_trans; [apply evolves_close_sub | apply evolves_clearTimeout].
Qed.

Lemma foldr_release_released (l : list ActiveBid) (s : State)
    (ab : ActiveBid) :
  let release := λ (bidInfo : ActiveBid) (st : State),
    clearTimeout (timeoutId bidInfo) (close_sub (subscription bidInfo) st) in
  ab ∈ l →
  (∀ sb, subs s !! subscription ab = Some sb →
     ∃ sb', subs (foldr release s l) !! subscription ab = Some sb'
            ∧ sub_closed sb' = true)
  ∧ (∀ t, timers s !! timeoutId ab = Some t →
       ∃ t', timers (foldr release s l) !! timeoutId ab = Some t'
             ∧ t_state t' ≠ Pending).
Proof.
  intros release Hin. induction l as [|a l IH];
    [by apply elem_of_nil in Hin|].
  simpl.
  destruct (evolves_foldr release l s evolves_release)
    as (_ & _ & _ & _ & _ & _ & Hsubs & Htimers).
  destruct (evolves_release a (foldr release s l))
    as (_ & _ & _ & _ & _ & _ & Hsubs' & Htimers').
  apply elem_of_cons in Hin as [<- | Hin].
  - split.
    + intros sb Hsb. destruct (Hsubs _ _ Hsb) as (sb1 & Hsb1 & _).
      eexists. split; [exact (close_sub_lookup _ _ _ Hsb1) | done].
    + intros t Ht. destruct (Htimers _ _ Ht) as (t1 & Ht1 & _).
      exact (clearTimeout_not_pending (timeoutId ab)
               (close_sub (subscription ab) (foldr release s l)) t1 Ht1).
  - destruct (IH Hin) as [IHs IHt]. split.
    + intros sb Hsb. destruct (IHs _ Hsb) as (sb1 & Hsb1 & Hclosed).
      destruct (Hsubs' _ _ Hsb1) as (sb2 & Hsb2 & _ & _ & _ & Hmono).
      exists sb2. auto.
    + intros t Ht. destruct (IHt _ Ht) as (t1 & Ht1 & Hnp).
      destruct (Htimers' _ _ Ht1) as (t2 & Ht2 & _ & _ & _ & Hmono).
      exists t2. split; [done|]. by rewrite (Hmono Hnp).
Qed.

Lemma subscriptions_foldr {A : Type} (f : A → State → State) (l : list A)
    (s : State) :
  (∀ a st, subscriptions (f a st) = subscriptions st
           ∧ heap (f a st) = heap st ∧ activeBids (f a st) = activeBids st) →
  subscriptions (foldr f s l) = subscriptions s
  ∧ heap (foldr f s l) = heap s ∧ activeBids (foldr f s l) = activeBids s.
Proof.
  intros Hf. induction l as [|a l (IH1 & IH2 & IH3)]; [done|]. simpl.
  destruct (Hf a (foldr f s l)) as (-> & -> & ->). done.
Qed.

(** X10: [Symbol.dispose] empties the registry and the list of ask
    subscriptions, closes every subscription of that list and the
    subscription of every registered conversation, leaves no timer of a
    registered conversation pending, asks the pool to close the ask relays
    and then the question relays, and keeps the conversation objects as
    they are; disposing a second time changes nothing more. *)
Theorem dispose_releases_everything (s : State) :
  (dispose s).2 = [PoolClose (askRelays s); PoolClose (questionRelays s)]
  ∧ activeBids (dispose s).1 = ∅
  ∧ subscriptions (dispose s).1 = []
  ∧ heap (dispose s).1 = heap s
  ∧ (∀ sid sb,
       sid ∈ subscriptions s → subs s !! sid = Some sb →
       ∃ sb', subs (dispose s).1 !! sid = Some sb' ∧ sub_closed sb' = true)
  ∧ (∀ key ref ab,
       activeBids s !! key = Some ref → heap s !! ref = Some ab →
       (∀ sb, subs s !! subscription ab = Some sb →
          ∃ sb', subs (dispose s).1 !! subscription ab = Some sb'
                 ∧ sub_closed sb' = true)
       ∧ (∀ t, timers s !! timeoutId ab = Some t →
            ∃ t', timers (dispose s).1 !! timeoutId ab = Some t'
                  ∧ t_state t' ≠ Pending))
  ∧ (dispose (dispose s).1).1 = (dispose s).1.
Proof.
  set (release := λ (bidInfo : ActiveBid) (st : State),
         clearTimeout (timeoutId bidInfo)
           (close_sub (subscription bidInfo) st)).
  set (s1 := foldr close_sub s (subscriptions s)).
  set (s2 := set_subscriptions (λ _, []) s1).
  set (objects :=
         omap (λ entry : string * nat, heap s2 !! entry.2)
           (map_to_list (activeBids s2))).
  set (s3 := foldr release s2 objects).
  assert ((dispose s).1 = set_activeBids (λ _, ∅) s3) as Hd by reflexivity.
  destruct (subscriptions_foldr close_sub (subscriptions s) s)
    as (_ & Hheap1 & Hreg1); [done|].
  destruct (subscriptions_foldr release objects s2)
    as (Hsubs3 & Hheap3 & Hreg3); [done|].
  fold s1 in Hheap1, Hreg1. fold s3 in Hsubs3, Hheap3, Hreg3.
  assert (evolves s1 s3) as (_ & _ & _ & _ & _ & _ & Hsubs13 & _).
  { eapply evolves_trans; [apply (evolves_set_subscriptions (λ _, []))|].
    apply evolves_foldr, evolves_release. }
  assert (evolves s s2) as (_ & _ & _ & _ & _ & _ & Hsubs02 & Htimers02).
  { eapply evolves_trans; [|apply (evolves_set_subscriptions (λ _, []))].
    apply evolves_foldr, evolves_close_sub. }
  rewrite Hd. split; [reflexivity|]. split; [reflexivity|].
  split; [exact Hsubs3|].
  split; [transitivity (heap s2); [exact Hheap3 | exact Hheap1]|].
  split; [|split].
  - intros sid sb Hin Hsb.
    destruct (foldr_close_sub_closed _ s sid sb Hin Hsb)
      as (sb1 & Hsb1 & Hclosed).
    destruct (Hsubs13 _ _ Hsb1) as (sb3 & Hsb3 & _ & _ & _ & Hmono).
    exists sb3. auto.
  - intros key ref ab Hkey Hab.
    assert (ab ∈ objects) as Hin.
    { apply list_elem_of_omap. exists (key, ref).
      split; [|simpl; transitivity (heap s1 !! ref);
                [reflexivity | by rewrite Hheap1]].
      apply elem_of_map_to_list.
      transitivity (activeBids s1 !! key); [reflexivity|].
      by rewrite Hreg1. }
    destruct (foldr_release_released objects s2 ab Hin) as [Hs Ht].
    split.
    + intros sb Hsb. destruct (Hsubs02 _ _ Hsb) as (sb2 & Hsb2 & _).
      exact (Hs _ Hsb2).
    + intros t Ht0. destruct (Htimers02 _ _ Ht0) as (t2 & Ht2 & _).
      exact (Ht _ Ht2).
  - unfold dispose. cbn [fst].
    assert (subscriptions (set_activeBids (λ _, ∅) s3) = []) as -> by done.
    cbn [foldr].
    assert (map_to_list
              (activeBids
                 (set_subscriptions (λ _, [])
                    (set_activeBids (λ _, ∅) s3))) = []) as ->
      by apply map_to_list_empty.
    cbn [omap list_omap foldr]. apply State_eq; try done.
Qed.

Lemma lengths_foldr {A : Type} (f : A → State → State) (l : list A)
    (s : State) :
  (∀ a st, length (subs (f a st)) = length (subs st)
           ∧ length (timers (f a st)) = length (timers st)) →
  length (subs (foldr f s l)) = length (subs s)
  ∧ length (timers (foldr f s l)) = length (timers s).
Proof.
  intros Hf. induction l as [|a l [IH1 IH2]]; [done|]. simpl.
  destruct (Hf a (foldr f s l)) as [-> ->]. done.
Qed.

Lemma dispose_lengths (s : State) :
  length (subs (dispose s).1) = length (subs s)
  ∧ length (timers (dispose s).1) = length (timers s).
Proof.
  unfold dispose. cbn [fst].
  match goal with
  | |- context [foldr ?f (set_subscriptions ?g ?s1) ?l] =>
      destruct (lengths_foldr f l (set_subscriptions g s1)) as [Hs Ht]
  end.
  { intros a st. split.
    - apply (length_subs_close_sub (subscription a) st).
    - apply (length_timers_clearTimeout (timeoutId a)
               (close_sub (subscription a) st)). }
  destruct (lengths_foldr close_sub (subscriptions s) s) as [Hs1 Ht1].
  { intros a st. split; [apply length_subs_close_sub | done]. }
  split.
  - etrans; [exact Hs | exact Hs1].
  - etrans; [exact Ht | exact Ht1].
Qed.

Lemma dispose_releases_state (s : State) :
  activeBids (dispose s).1 = ∅ ∧ heap (dispose s).1 = heap s.
Proof.
  unfold dispose. cbn [fst]. split; [reflexivity|].
  match goal with
  | |- context [foldr ?f (set_subscriptions ?g ?s1) ?l] =>
      destruct (subscriptions_foldr f l (set_subscriptions g s1))
        as (_ & Hh & _); [done|]
  end.
  destruct (subscriptions_foldr close_sub (subscriptions s) s)
    as (_ & Hh1 & _); [done|].
  etrans; [exact Hh | exact Hh1].
Qed.

(** X11: disposal does not stop the handlers in flight. A bid whose
    publication is accepted by a relay after [Symbol.dispose] still arms its
    conversation: the emptied registry then holds it under the id of the bid
    payload, with a new open subscription and a new pending timer. Likewise
    an answer offering a follow-up whose publication settles after disposal
    arms the follow-up turn under the id of the answer. *)
Theorem handlers_outlive_dispose (s : State) (e : Env)
    (results : list bool) :
  (∀ askEv b bidEv payloadEv hash,
     (0 < successful results)%nat →
     ∃ s',
       resume (AwaitBidPublish askEv b bidEv payloadEv hash)
         (RPublished results) e (dispose s).1 = Some (s', [], None) ∧
       activeBids s' = {[ev_id payloadEv := length (heap s)]} ∧
       is_armed s' (ev_id payloadEv) (length (heap s)) (length (subs s))
         (length (timers s)))
  ∧ (∀ qev ref q a inv hash answerEv ab,
       heap s !! ref = Some ab →
       inv ≠ ""%string →
       positive_number (followup_sats a) = true →
       ∃ s',
         resume (AwaitAnswerPublish qev ref q a (Some inv) (Some hash)
                   answerEv)
           (RPublished results) e (dispose s).1 = Some (s', [], None) ∧
         activeBids s' = {[ev_id answerEv := ref]} ∧
         is_armed s' (ev_id answerEv) ref (length (subs s))
           (length (timers s))).
Proof.
  destruct (dispose_releases_state s) as (Hreg & Hheap).
  destruct (dispose_lengths s) as [Hls Hlt].
  remember (dispose s).1 as s0 eqn:Hs0. clear Hs0.
  split.
  - intros askEv b bidEv payloadEv hash Hok.
    exists (setupQuestionSubscription askEv bidEv payloadEv hash b e s0).
    split; [|split].
    + cbn [resume]. unfold handleAskEvent_published.
      by rewrite bool_decide_eq_true_2.
    + unfold setupQuestionSubscription; simpl. rewrite Hreg, Hheap.
      apply insert_empty.
    + rewrite <- Hheap, <- Hls, <- Hlt.
      apply setupQuestionSubscription_arms.
  - intros qev ref q a inv hash answerEv ab Hab Hinv Hpos.
    set (s1 := update_object ref (set_paymentHash hash)
                 (update_object ref (push_history q a) s0)).
    exists (setupFollowupSubscription (ev_id answerEv) ref s1).
    split; [|split].
    + cbn [resume]. unfold handleQuestionEvent_published.
      assert (truthy_string (Some inv) = true) as ->
        by (apply truthy_string_spec; eauto).
      by rewrite Hpos.
    + unfold setupFollowupSubscription; simpl. rewrite Hreg.
      apply insert_empty.
    + rewrite <- Hls, <- Hlt.
      assert (is_Some (heap s1 !! ref)) as Hsome.
      { eexists. subst s1. do 2 apply update_object_lookup.
        by rewrite Hheap. }
      assert (length (subs s0) = length (subs s1)) as -> by reflexivity.
      assert (length (timers s0) = length (timers s1)) as -> by reflexivity.
      by apply setupFollowupSubscription_arms.
Qed.

(** ** What is ever published *)

Lemma own_publication_config (s s' : State) (f : Effect) :
  askRelays s' = askRelays s → questionRelays s' = questionRelays s →
  own_publication s f → own_publication s' f.
Proof. intros Ha Hq. destruct f; simpl; try done. by rewrite Ha, Hq. Qed.

Lemma resume_own_publications (t : Task) (r : Response) (e : Env)
    (s s' : State) (effs : list Effect) (t' : option Task) :
  resume t r e s = Some (s', effs, t') → Forall (own_publication s) effs.
Proof.
  intros Hres.
  destruct t, r; try discriminate; simpl in Hres; injection Hres as Hout;
    apply (f_equal (λ o, o.1.2)) in Hout; simpl in Hout; subst effs.
  - destruct r as [[b|]|]; simpl; by repeat constructor.
  - destruct (handleAskEvent_invoiced_cases askEv b bidPrivateKey r e s)
      as [Hc | (? & ? & ? & _ & _ & _ & Hc)]; rewrite Hc; simpl;
      [constructor|]. constructor; [by left | constructor].
  - rewrite (proj1 (handleAskEvent_published_effects _ _ _ _ _ _ _ _)).
    constructor.
  - destruct (handleQuestionEvent_looked_up_cases questionEvent activeBid
                questionPayload preimage r s)
      as [Hc | (? & ? & _ & _ & _ & Hc)]; rewrite Hc; simpl;
      by repeat constructor.
  - destruct (handleQuestionEvent_answered_cases questionEvent activeBid q r
                e s)
      as [Hc | [(? & ? & ? & _ & _ & _ & _ & Hc) | (a & _ & _ & Hc)]];
      rewrite Hc; simpl; try by repeat constructor.
    destruct (publish_answer_cases questionEvent activeBid q a None None e s)
      as [Hp | (? & ? & ? & _ & _ & _ & Hp)]; rewrite Hp; simpl;
      [constructor|]. constructor; [by right | constructor].
  - destruct (handleQuestionEvent_invoiced_cases questionEvent activeBid q a
                r e s) as [Hc | (resp & _ & Hc)]; rewrite Hc; simpl;
      [constructor|].
    destruct (publish_answer_cases questionEvent activeBid q a
                (Some (invoice resp)) (Some (payment_hash resp)) e s)
      as [Hp | (? & ? & ? & _ & _ & _ & Hp)]; rewrite Hp; simpl;
      [constructor|]. constructor; [by right | constructor].
  - rewrite (proj1 (handleQuestionEvent_published_effects _ _ _ _ _ _ _ _ _)).
    constructor.
Qed.

Lemma onevent_own_publications (sub : nat) (ev : Event) (s : State) :
  Forall (own_publication s) (onevent sub ev s).1.2.
Proof.
  unfold onevent. destruct (subs s !! sub) as [sb|]; [|constructor].
  destruct (sub_onevent sb).
  - unfold handleAskEvent. case_bool_decide; simpl; by repeat constructor.
  - unfold onevent_question.
    destruct (activeBids s !! bidPayloadId); [|constructor].
    match goal with
    | |- context [handleQuestionEvent ?q ?r ?st] =>
        destruct (handleQuestionEvent_cases q r st)
          as [Hc | (? & ? & ? & _ & _ & _ & _ & _ & _ & _ & Hc)]; rewrite Hc
    end; simpl; by repeat constructor.
  - unfold onevent_followup.
    match goal with
    | |- context [handleQuestionEvent ?q ?r ?st] =>
        destruct (handleQuestionEvent_cases q r st)
          as [Hc | (? & ? & ? & _ & _ & _ & _ & _ & _ & _ & Hc)]; rewrite Hc
    end; simpl; by repeat constructor.
Qed.

Lemma step_own_publications (i : Input) (m : Machine) :
  ∃ effs, trace (step i m) = trace m ++ effs
          ∧ Forall (own_publication (mem m)) effs.
Proof.
  destruct i as [e | | sub ev | tid | task r e]; unfold step.
  - exists []. by rewrite app_nil_r.
  - exists [PoolClose (askRelays (mem m)); PoolClose (questionRelays (mem m))].
    split; [|by repeat constructor].
    by destruct (dispose (mem m)) as [s effs] eqn:Hd; injection Hd as _ <-.
  - pose proof (onevent_own_publications sub ev (mem m)) as Ho.
    destruct (onevent sub ev (mem m)) as [[s effs] t]. by exists effs.
  - exists []. by rewrite app_nil_r.
  - destruct (pending m !! task) as [[t|]|];
      try (exists []; by rewrite app_nil_r).
    destruct (resume t r e (mem m)) as [[[s effs] t']|] eqn:Hres;
      [|exists []; by rewrite app_nil_r].
    exists effs. split; [done | by eapply resume_own_publications].
Qed.

(** X12: over any run, all that is ever published are bid events (kind
    20175), sent to the configured ask relays, and answer events (kind
    20178), sent to the configured question relays. *)
Theorem only_bids_and_answers_are_published (inputs : list Input)
    (m : Machine) (relays : list string) (ev : Event) :
  Publish relays ev ∈ trace (run inputs m) →
  Publish relays ev ∈ trace m
  ∨ (ev_kind ev = 20175 ∧ relays = askRelays (mem m))
  ∨ (ev_kind ev = 20178 ∧ relays = questionRelays (mem m)).
Proof.
  revert m. induction inputs as [|i inputs IH]; intros m Hin; [by left|].
  rewrite run_cons in Hin. destruct (IH _ Hin) as [Hold | Hnew].
  - destruct (step_own_publications i m) as (effs & Htrace & Hown).
    rewrite Htrace in Hold. apply elem_of_app in Hold as [Hold | Hold];
      [by left|].
    right. rewrite Forall_forall in Hown. exact (Hown _ Hold).
  - right. destruct (evolves_step i m) as (_ & Ha & Hq & _).
    by rewrite <- Ha, <- Hq.
Qed.

(** ** Registered conversations can expire *)

Lemma callbacks_close_sub (sid : nat) (s : State) :
  callbacks (close_sub sid s) = callbacks s.
Proof.
  unfold callbacks, close_sub; simpl.
  destruct (subs s !! sid) as [sb|] eqn:Hsb; [|done].
  rewrite list_fmap_insert. simpl. apply list_insert_id.
  by rewrite list_lookup_fmap, Hsb.
Qed.

Lemma timer_keys_clearTimeout (tid : nat) (s : State) :
  timer_keys (clearTimeout tid s) = timer_keys s.
Proof.
  unfold timer_keys, clearTimeout; simpl.
  destruct (timers s !! tid) as [t|] eqn:Ht; [|done].
  destruct (t_state t); try done.
  rewrite list_fmap_insert. simpl. apply list_insert_id.
  by rewrite list_lookup_fmap, Ht.
Qed.

Lemma timers_clearTimeout_ne (tid i : nat) (s : State) :
  i ≠ tid → timers (clearTimeout tid s) !! i = timers s !! i.
Proof.
  intros Hne. unfold clearTimeout; simpl.
  destruct (timers s !! tid) as [t|]; [|done].
  destruct (t_state t); try done. by apply list_lookup_insert_ne.
Qed.

Lemma timer_keys_lookup (s : State) (tid : nat) (t : Timer) :
  timers s !! tid = Some t → timer_keys s !! tid = Some (t_key t).
Proof. intros Ht. unfold timer_keys. by rewrite list_lookup_fmap, Ht. Qed.

(** Removing a key together with the timer set for it. *)
Lemma can_expire_remove (s s' : State) (key : string) (tid : nat) :
  can_expire s →
  bidTimeout s' = bidTimeout s →
  activeBids s' = delete key (activeBids s) →
  (∀ i, i ≠ tid → timers s' !! i = timers s !! i) →
  (∀ k, timer_keys s !! tid = Some k → k = key) →
  can_expire s'.
Proof.
  intros Hcan Hbt Hreg Hothers Hkey k ref Hk.
  rewrite Hreg in Hk. apply lookup_delete_Some in Hk as [Hne Hk].
  destruct (Hcan _ _ Hk) as (i & t & Ht & Hp & Hkt & Hd).
  exists i, t. rewrite Hbt. repeat split; try done.
  rewrite Hothers; [done|]. intros ->.
  apply Hne. symmetry. apply Hkey. rewrite <- Hkt.
  by apply timer_keys_lookup.
Qed.

(** Registering a key together with a new pending timer for it. *)
Lemma can_expire_arm (s s' : State) (key : string) (ref sub : nat) :
  can_expire s →
  bidTimeout s' = bidTimeout s →
  activeBids s' = <[key := ref]> (activeBids s) →
  timers s' = timers s ++ [mkTimer (bidTimeout s * 1000) sub key Pending] →
  can_expire s'.
Proof.
  intros Hcan Hbt Hreg Htimers k r Hk. rewrite Hreg in Hk.
  rewrite Htimers, Hbt.
  destruct (decide (key = k)) as [<- | Hne].
  - exists (length (timers s)). eexists.
    split; [by apply list_lookup_middle | done].
  - rewrite lookup_insert_ne in Hk by done.
    destruct (Hcan _ _ Hk) as (i & t & Ht & Hrest).
    exists i, t. split; [by apply lookup_app_l_Some | done].
Qed.

Lemma paired_arm (s s' : State) (cb : SubCallback) (key : string) :
  paired s →
  callbacks s' = callbacks s ++ [cb] →
  timer_keys s' = timer_keys s ++ [key] →
  match cb with
  | OnAsk => True
  | OnQuestion k timeout | OnFollowup k _ timeout =>
      k = key ∧ timeout = length (timer_keys s)
  end →
  paired s'.
Proof.
  intros Hp Hcbs Hkeys Hcb sub c Hc. rewrite Hcbs in Hc. rewrite Hkeys.
  apply lookup_app_Some in Hc as [Hc | [_ Hc]].
  - specialize (Hp _ _ Hc). destruct c; try done;
      by apply lookup_app_l_Some.
  - destruct (sub - length (callbacks s))%nat; [|done].
    injection Hc as <-. destruct cb; try done;
      destruct Hcb as [-> ->]; by apply list_lookup_middle.
Qed.

Lemma paired_same (s s' : State) :
  callbacks s' = callbacks s → timer_keys s' = timer_keys s →
  paired s → paired s'.
Proof. intros Hc Hk Hp sub cb. rewrite Hc, Hk. apply Hp. Qed.

Lemma can_expire_same (s s' : State) :
  activeBids s' = activeBids s → timers s' = timers s →
  bidTimeout s' = bidTimeout s → can_expire s → can_expire s'.
Proof. intros Hr Ht Hb Hc key ref. rewrite Hr, Ht, Hb. apply Hc. Qed.

Lemma foldr_preserves {A X : Type} (g : State → X) (f : A → State → State)
    (l : list A) (s : State) :
  (∀ a st, g (f a st) = g st) → g (foldr f s l) = g s.
Proof.
  intros Hf. induction l as [|a l IH]; [done|]. simpl. by rewrite Hf.
Qed.

Lemma sound_consume (s : State) (key : string) (sub timeout : nat)
    (cb : SubCallback) :
  paired s → can_expire s →
  callbacks s !! sub = Some cb →
  (cb = OnQuestion key timeout ∨ ∃ ref, cb = OnFollowup key ref timeout) →
  paired (set_activeBids (λ m, delete key m)
            (clearTimeout timeout (close_sub sub s)))
  ∧ can_expire (set_activeBids (λ m, delete key m)
                  (clearTimeout timeout (close_sub sub s))).
Proof.
  intros Hp Hc Hcb Hshape. split.
  - apply (paired_same s); [| |done].
    + apply callbacks_close_sub.
    + apply (timer_keys_clearTimeout timeout (close_sub sub s)).
  - apply (can_expire_remove s _ key timeout); try done.
    + intros i Hne.
      apply (timers_clearTimeout_ne timeout i (close_sub sub s) Hne).
    + intros k Hk. specialize (Hp _ _ Hcb).
      destruct Hshape as [-> | [ref ->]]; congruence.
Qed.

Lemma sound_fire_timer (tid : nat) (s : State) :
  paired s → can_expire s →
  paired (fire_timer tid s) ∧ can_expire (fire_timer tid s).
Proof.
  intros Hp Hc. unfold fire_timer.
  destruct (timers s !! tid) as [t|] eqn:Ht; [|done].
  destruct (t_state t) eqn:Hst; try done.
  assert (timer_keys
            (set_timers (λ l, <[tid := mkTimer (t_delay_ms t) (t_sub t)
                                         (t_key t) Fired]> l) s)
          = timer_keys s) as Hkeys.
  { unfold timer_keys; simpl. rewrite list_fmap_insert. simpl.
    apply list_insert_id. by rewrite list_lookup_fmap, Ht. }
  split.
  - apply (paired_same s); [|exact Hkeys|done].
    match goal with
    | |- callbacks (set_activeBids _ (close_sub ?x ?st)) = _ =>
        exact (callbacks_close_sub x st)
    end.
  - apply (can_expire_remove s _ (t_key t) tid); try done.
    + intros i Hne. simpl. by apply list_lookup_insert_ne.
    + intros k Hk. rewrite (timer_keys_lookup _ _ _ Ht) in Hk. congruence.
Qed.

Lemma sound_dispose (s : State) :
  paired s → paired (dispose s).1 ∧ can_expire (dispose s).1.
Proof.
  intros Hp. split.
  - apply (paired_same s); [| |done]; unfold dispose; cbn [fst].
    + match goal with
      | |- callbacks (set_activeBids _ (foldr ?f ?st ?l)) = _ =>
          transitivity (callbacks st);
            [apply (foldr_preserves callbacks f l st)|]
      end.
      * intros a st.
        apply (callbacks_close_sub (subscription a) st).
      * apply (foldr_preserves callbacks close_sub).
        apply callbacks_close_sub.
    + match goal with
      | |- timer_keys (set_activeBids _ (foldr ?f ?st ?l)) = _ =>
          transitivity (timer_keys st);
            [apply (foldr_preserves timer_keys f l st)|]
      end.
      * intros a st.
        apply (timer_keys_clearTimeout (timeoutId a)
                 (close_sub (subscription a) st)).
      * by apply (foldr_preserves timer_keys close_sub).
  - intros key ref Hk.
    rewrite (proj1 (dispose_releases_state s)) in Hk. done.
Qed.

Lemma sound_setupQuestionSubscription (askEv bidEv payloadEv : Event)
    (hash : string) (b : Bid) (e : Env) (s : State) :
  paired s → can_expire s →
  paired (setupQuestionSubscription askEv bidEv payloadEv hash b e s)
  ∧ can_expire (setupQuestionSubscription askEv bidEv payloadEv hash b e s).
Proof.
  intros Hp Hc. split.
  - eapply (paired_arm s _ _ (ev_id payloadEv)); [done| | |].
    + unfold callbacks, setupQuestionSubscription; simpl.
      by rewrite fmap_app.
    + unfold timer_keys, setupQuestionSubscription; simpl.
      by rewrite fmap_app.
    + simpl. split; [done|]. unfold timer_keys. by rewrite length_fmap.
  - by eapply (can_expire_arm s _ (ev_id payloadEv)).
Qed.

Lemma sound_setupFollowupSubscription (answerId : string) (ref : nat)
    (s : State) :
  paired s → can_expire s →
  paired (setupFollowupSubscription answerId ref s)
  ∧ can_expire (setupFollowupSubscription answerId ref s).
Proof.
  intros Hp Hc. split.
  - eapply (paired_arm s _ _ answerId); [done| | |].
    + unfold callbacks, setupFollowupSubscription; simpl.
      by rewrite fmap_app.
    + unfold timer_keys, setupFollowupSubscription; simpl.
      by rewrite fmap_app.
    + simpl. split; [done|]. unfold timer_keys. by rewrite length_fmap.
  - by eapply (can_expire_arm s _ answerId).
Qed.

Lemma sound_start (e : Env) (s : State) :
  paired s → can_expire s → paired (start e s) ∧ can_expire (start e s).
Proof.
  intros Hp Hc. split; [|by apply (can_expire_same s)].
  intros sub cb Hcb. unfold callbacks, start in Hcb; simpl in Hcb.
  rewrite !fmap_app in Hcb. simpl in Hcb.
  apply lookup_app_Some in Hcb as [Hcb | [_ Hcb]].
  - apply lookup_app_Some in Hcb as [Hcb | [_ Hcb]].
    + exact (Hp _ _ Hcb).
    + destruct (_ - _)%nat; [by injection Hcb as <- | done].
  - destruct (_ - _)%nat; [by injection Hcb as <- | done].
Qed.

Lemma sound_onevent (sub : nat) (ev : Event) (s : State) :
  paired s → can_expire s →
  paired (onevent sub ev s).1.1 ∧ can_expire (onevent sub ev s).1.1.
Proof.
  intros Hp Hc. unfold onevent.
  destruct (subs s !! sub) as [sb|] eqn:Hsb; [|done].
  assert (callbacks s !! sub = Some (sub_onevent sb)) as Hcb
    by (unfold callbacks; by rewrite list_lookup_fmap, Hsb).
  destruct (sub_onevent sb) as [|key timeout|key ref timeout] eqn:Hshape.
  - by rewrite handleAskEvent_state.
  - unfold onevent_question. destruct (activeBids s !! key); [|done].
    rewrite handleQuestionEvent_state.
    eapply sound_consume; eauto.
  - unfold onevent_followup. rewrite handleQuestionEvent_state.
    eapply sound_consume; eauto.
Qed.

Lemma sound_resume (t : Task) (r : Response) (e : Env) (s s' : State)
    (effs : list Effect) (t' : option Task) :
  resume t r e s = Some (s', effs, t') →
  paired s → can_expire s → paired s' ∧ can_expire s'.
Proof.
  intros Hres Hp Hc.
  assert (settling t ∨ ¬ settling t) as [Hs | Hns]
    by (destruct t; simpl; auto);
    [|by rewrite (resume_state _ _ _ _ _ _ _ Hres Hns)].
  destruct t; try done; destruct r; try discriminate; simpl in Hres;
    injection Hres as Hout; apply (f_equal (λ o, o.1.1)) in Hout;
    simpl in Hout; subst s'.
  - unfold handleAskEvent_published. case_bool_decide; simpl; [|done].
    by apply sound_setupQuestionSubscription.
  - unfold handleQuestionEvent_published.
    destruct (truthy_string inv && positive_number (followup_sats a)); simpl.
    + apply sound_setupFollowupSubscription.
      * by apply (paired_same s).
      * by apply (can_expire_same s).
    + split; [by apply (paired_same s) | by apply (can_expire_same s)].
Qed.

Lemma sound_step (i : Input) (m : Machine) :
  paired (mem m) → can_expire (mem m) →
  paired (mem (step i m)) ∧ can_expire (mem (step i m)).
Proof.
  intros Hp Hc. destruct i as [e | | sub ev | tid | task r e]; unfold step.
  - by apply sound_start.
  - pose proof (sound_dispose (mem m) Hp) as Hd.
    by destruct (dispose (mem m)).
  - pose proof (sound_onevent sub ev (mem m) Hp Hc) as Ho.
    by destruct (onevent sub ev (mem m)) as [[s effs] t].
  - by apply sound_fire_timer.
  - destruct (pending m !! task) as [[t|]|]; try done.
    destruct (resume t r e (mem m)) as [[[s effs] t']|] eqn:Hres; [|done].
    cbn [mem]. by eapply sound_resume.
Qed.

Lemma sound_run (inputs : list Input) (m : Machine) :
  paired (mem m) → can_expire (mem m) →
  paired (mem (run inputs m)) ∧ can_expire (mem (run inputs m)).
Proof.
  revert m. induction inputs as [|i inputs IH]; intros m Hp Hc; [done|].
  rewrite run_cons. destruct (sound_step i m Hp Hc). by apply IH.
Qed.

(** X13: start from an expert with no subscription, no timer and an empty
    registry, as the constructor makes it, and let the program run in any
    way. Every key then found in the registry has a pending timer of
    [bidTimeout] seconds set for it, and the firing of that timer removes
    the key: no conversation stays registered for ever. *)
Theorem registered_conversations_can_expire (inputs : list Input)
    (s0 : State) (key : string) (ref : nat) :
  fresh s0 →
  activeBids (mem (run inputs (boot s0))) !! key = Some ref →
  ∃ tid t,
    timers (mem (run inputs (boot s0))) !! tid = Some t ∧
    t_state t = Pending ∧
    t_key t = key ∧
    t_delay_ms t = bidTimeout s0 * 1000 ∧
    activeBids (mem (step (InTimer tid) (run inputs (boot s0)))) !! key
      = None.
Proof.
  intros (Hsubs & Htimers & Hreg) Hkey.
  destruct (sound_run inputs (boot s0)) as [_ Hcan].
  { intros sub cb Hcb. unfold callbacks in Hcb. simpl in Hcb.
    by rewrite Hsubs in Hcb. }
  { intros k r Hk. simpl in Hk. by rewrite Hreg in Hk. }
  destruct (Hcan _ _ Hkey) as (tid & t & Ht & Hp & Hk & Hd).
  destruct (evolves_run inputs (boot s0)) as (_ & _ & _ & _ & Hbt & _).
  simpl in Hbt. rewrite Hbt in Hd.
  exists tid, t. repeat split; try done.
  simpl. unfold fire_timer. rewrite Ht, Hp. simpl. rewrite Hk.
  apply lookup_delete_eq.
Qed.

End Properties.

(** * The properties on concrete runs *)

Module Scenarios.
Import Toy.

(** C3, counterexample: an expert configured with no hashtag still opens the
    first subscription, without any tag constraint, next to the
    direct-address one. *)
Lemma start_without_hashtags_subscribes_twice :
  hashtags expert_no_tags = []
  ∧ subs (start (env 1700000000000 "s") expert_no_tags) =
      [mkSub ["wss://ask"]
         [mkFilter [20174] (Some 1699999990) None None None] OnAsk false;
       mkSub ["wss://ask"]
         [mkFilter [20174] (Some 1699999990) None (Some ["pub-k"]) None]
         OnAsk false]
  ∧ subs (start (env 1700000000000 "s") expert_no_tags) ≠
      [mkSub ["wss://ask"]
         [mkFilter [20174] (Some 1699999990) None (Some ["pub-k"]) None]
         OnAsk false].
Proof. split; [reflexivity|]. split; [reflexivity|]. discriminate. Qed.

(** C2: an answer that offers a follow-up is rejected by every question
    relay, and the conversation is armed again all the same: it is back in
    the registry under the id of the answer, with the new payment hash, an
    open subscription and a pending timer. *)
Lemma followup_armed_without_publication :
  successful [false; false] = 0%nat
  ∧ questions_answered (trace answer_rejected) = ["q1"]
  ∧ activeBids (mem answer_rejected) !! answer_id = Some 0%nat
  ∧ (paymentHash <$> heap (mem answer_rejected) !! 0%nat) = Some "H2"
  ∧ (contextId <$> heap (mem answer_rejected) !! 0%nat) = Some answer_id
  ∧ subs (mem answer_rejected) !! 3%nat =
      Some (mkSub ["wss://q1"; "wss://q2"] [questionFilter answer_id]
              (OnFollowup answer_id 0 1) false)
  ∧ timers (mem answer_rejected) !! 1%nat =
      Some (mkTimer 600000 3 answer_id Pending).
Proof. vm_compute. repeat split; reflexivity. Qed.

(** C4: on a follow-up turn, a second question for the same context id that
    reaches the callback while the first is being handled is handled as
    well, although the registry entry is gone by then: the answer handler is
    called for both and both are answered. *)
Lemma followup_question_handled_twice :
  activeBids (mem followup_armed) !! answer_id = Some 0%nat
  ∧ activeBids
      (mem (step (InEvent 3%nat (question_event "q2" answer_id "2H"))
              followup_armed)) !! answer_id = None
  ∧ questions_asked (trace followup_armed) = ["q1"]
  ∧ questions_asked (trace second_turn_twice) = ["q1"; "q2"; "q3"]
  ∧ questions_answered (trace second_turn_twice) = ["q1"; "q2"; "q3"].
Proof. vm_compute. repeat split; reflexivity. Qed.

(** The same on the first turn: the callback of the bid subscription looks
    the entry up, finds none and drops the second question. *)
Lemma bid_question_handled_once :
  questions_asked (trace first_turn_twice) = ["q1"]
  ∧ pending first_turn_twice !! 2%nat = None.
Proof. vm_compute. split; reflexivity. Qed.

(** The conversation of [armed] is armed under the id of its bid payload. *)
Lemma armed_is_armed : is_armed (mem armed) ctx 0 2 0.
Proof.
  exists conversation,
    (mkSub ["wss://q1"; "wss://q2"] [questionFilter ctx] (OnQuestion ctx 0)
       false),
    (mkTimer 600000 2 ctx Pending).
  repeat split; try reflexivity. by left.
Defined.

Lemma timeout_removes_conversation_witness :
  activeBids (mem (step (InTimer 0%nat) armed)) !! ctx = None
  ∧ trace (step (InTimer 0%nat) armed) = trace armed.
Proof.
  destruct (timeout_removes_conversation armed ctx 0 2 0 armed_is_armed)
    as (_ & Hgone & _ & _ & Htrace & _).
  split; assumption.
Defined.

Lemma first_e_tag_decides_witness :
  handleQuestionEvent
    (mkEvent "q9" "client" 1700000100 NOSTR_EVENT_KIND_QUESTION
       [["p"; "x"]; ["e"; "other"]; ["e"; ctx]] "enc:H/why?" "sig")
    0 (mem armed)
  = (mem armed, [], None).
Proof.
  refine (proj1 (first_e_tag_decides _ 0 (mem armed) _ _)
            [["p"; "x"]] ["e"; "other"] [["e"; ctx]] _ _ _ _).
  - vm_compute. reflexivity.
  - reflexivity.
  - repeat constructor. discriminate.
  - reflexivity.
  - discriminate.
Defined.

Lemma invoice_amounts_witness :
  (∃ amount d,
     CallMakeInvoice amount d
       ∈ (handleQuestionEvent_answered (question_event "q1" ctx "H") 0
            (mkQuestion "q1" "why?" "H" [["preimage"; "H"]])
            (Resolved answer1) (env 1700000011000 "s") (mem armed)).1.2)
  ∧ (handleAskEvent_decided ask_event (Resolved (Some the_bid))
       (env 1700000001000 "b") expert).1.2
    = [CallMakeInvoice (number 10000) "Bid for ask ask1"]
  ∧ integer_value (bid_sats the_bid) = Some 10
  ∧ integer_value (js_mul (bid_sats the_bid) (number 1000)) = Some 10000.
Proof.
  destruct invoice_amounts as (Hbid & Hfollow & _ & _ & Hexact).
  split; [|split].
  - eapply Hfollow.
    + vm_compute. reflexivity.
    + exists (number 5). split; reflexivity.
  - exact (Hbid ask_event the_bid (env 1700000001000 "b") expert).
  - destruct (Hexact 10) as (Hn & _ & Hmul); [lia | lia |].
    split; [exact Hn | exact Hmul].
Defined.

(** C9, counterexample: for a bid, and for a follow-up, of [2^53 - 1] sats,
    which is a [number], the wallet is asked for 9007199254740990976
    millisatoshis: the product by 1000 is rounded to the nearest [number],
    24 below [sats * 1000]. *)
Lemma invoice_amount_is_rounded :
  integer_value (bid_sats big_bid) = Some 9007199254740991
  ∧ followup_sats big_answer = Some (bid_sats big_bid)
  ∧ (∃ amount,
       (handleAskEvent_decided ask_event (Resolved (Some big_bid))
          (env 1700000001000 "b") expert).1.2
       = [CallMakeInvoice amount "Bid for ask ask1"]
       ∧ integer_value amount = Some 9007199254740990976
       ∧ integer_value amount ≠ Some (9007199254740991 * 1000))
  ∧ (∃ amount,
       (handleQuestionEvent_answered (question_event "q1" ctx "H") 0
          question1 (Resolved big_answer) (env 1700000011000 "s")
          (mem armed)).1.2
       = [CallMakeInvoice amount "Followup question for id(pub-k,hi)"]
       ∧ integer_value amount = Some 9007199254740990976
       ∧ integer_value amount ≠ Some (9007199254740991 * 1000)).
Proof.
  split; [reflexivity|]. split; [reflexivity|].
  split; eexists; (split; [vm_compute; reflexivity|]);
    (split; [vm_compute; reflexivity | vm_compute; discriminate]).
Qed.



Lemma bid_registration_witness :
  resume (AwaitBidPublish ask_event the_bid bid_event bid_payload_event "H")
    (RPublished [false; false]) (env 1700000003000 "s") expert
  = Some (expert, [], None)
  ∧ ∃ s',
      resume
        (AwaitBidPublish ask_event the_bid bid_event bid_payload_event "H")
        (RPublished [false; true]) (env 1700000003000 "s") expert
      = Some (s', [], None)
      ∧ activeBids s' = <[ctx := 0%nat]> ∅
      ∧ length (heap s') = 1%nat
      ∧ length (subs s') = 1%nat
      ∧ length (timers s') = 1%nat.
Proof.
  split.
  - destruct (bid_registration ask_event the_bid (key "b")
                (mkInvoiceResponse "lnbc1" "H") (env 1700000002000 "s") expert
                (AwaitBidPublish ask_event the_bid bid_event bid_payload_event
                   "H")
                [false; false] (env 1700000003000 "s") expert)
      as (s' & Hres & Hnone & _).
    + vm_compute. reflexivity.
    + rewrite <- Hnone at 2; [exact Hres|].
      intros Hin. repeat (apply elem_of_cons in Hin as [|Hin]; [done|]).
      by apply elem_of_nil in Hin.
  - destruct (bid_registration ask_event the_bid (key "b")
                (mkInvoiceResponse "lnbc1" "H") (env 1700000002000 "s") expert
                (AwaitBidPublish ask_event the_bid bid_event bid_payload_event
                   "H")
                [false; true] (env 1700000003000 "s") expert)
      as (s' & Hres & _ & Hreg).
    + vm_compute. reflexivity.
    + exists s'. split; [exact Hres|].
      destruct Hreg as (Hreg & (bidEv & Hheap) & Hsubs & Htimers);
        [apply elem_of_cons; right; apply elem_of_cons; by left|].
      split; [exact Hreg|].
      rewrite Hheap, Hsubs, Htimers. repeat split; reflexivity.
Defined.

Lemma payment_required_witness :
  payment_proved (question_event "q1" ctx "H") 0 (mem armed) "H"
  ∧ settled paid.
Proof.
  assert (∃ effs,
            unfolds
              (Some (AwaitLookup (question_event "q1" ctx "H") 0
                       (mkQuestionPayload "why?" [["preimage"; "H"]]) "H"))
              [paid; RAnswer (Resolved answer_plain)] effs
            ∧ ∃ relays ev, Publish relays ev ∈ effs) as (effs & Hun & Hin).
  { eexists. split.
    - eapply (unfolds_resume _ _ (env 1700000010000 "s") (mem armed));
        [vm_compute; reflexivity|].
      eapply (unfolds_resume _ _ (env 1700000011000 "c") (mem armed));
        [vm_compute; reflexivity|].
      apply unfolds_here.
    - eexists _, _. apply elem_of_cons. right.
      apply elem_of_cons. left. reflexivity. }
  destruct Hin as (relays & ev & Hin).
  destruct (payment_required (question_event "q1" ctx "H") 0 (mem armed)
              (mem armed) [CallLookupInvoice "H"] effs
              (Some (AwaitLookup (question_event "q1" ctx "H") 0
                       (mkQuestionPayload "why?" [["preimage"; "H"]]) "H"))
              [paid; RAnswer (Resolved answer_plain)])
    as (_ & Hpub & _).
  - vm_compute. reflexivity.
  - exact Hun.
  - destruct (Hpub relays ev)
      as (_ & (h & Hproved & [= <-]) & (r & rs & [= <- _] & Hset) & _).
    { apply elem_of_cons. by right. }
    split; assumption.
Defined.



(** ** The further properties on concrete runs *)

Lemma conversation_identity_is_stable_witness :
  ∃ ab',
    heap (mem followup_armed) !! 0%nat = Some ab' ∧
    sessionPubkey ab' = "client" ∧
    [] `prefix_of` default [] (history ab').
Proof.
  destruct (conversation_identity_is_stable
              (first_turn ++ [InResume 1%nat (RPublished [true; false])
                                (env 1700000013000 "s")])
              armed 0 conversation)
    as (ab' & Hab' & Hkey & _ & _ & _ & _ & _ & Hhist).
  - vm_compute. reflexivity.
  - exists ab'. split; [exact Hab'|]. split; [exact Hkey | exact Hhist].
Defined.

Lemma failures_are_silent_witness :
  resume (AwaitAnswer (question_event "q1" ctx "H") 0 question1)
    (RAnswer Rejected) (env 1700000011000 "s") (mem armed)
  = Some (mem armed, [], None)
  ∧ mem armed = mem armed.
Proof.
  split; [reflexivity|].
  refine (proj1 (proj1 (failures_are_silent
                          (AwaitAnswer (question_event "q1" ctx "H") 0
                             question1)
                          (RAnswer Rejected) (env 1700000011000 "s")
                          (mem armed) (mem armed) [] None _) _)).
  - reflexivity.
  - exact I.
Defined.

Lemma ask_pipeline_calls_witness :
  ∃ effs,
    unfolds (Some (AwaitOnAsk ask_event))
      [RBid (Resolved (Some the_bid));
       RInvoice (Resolved (mkInvoiceResponse "lnbc1" "H"))] effs
    ∧ (ev_kind ask_event ≠ 20174 →
       [CallOnAsk (ask_of_event ask_event)] ++ effs = []).
Proof.
  assert (∃ effs,
            unfolds (Some (AwaitOnAsk ask_event))
              [RBid (Resolved (Some the_bid));
               RInvoice (Resolved (mkInvoiceResponse "lnbc1" "H"))] effs)
    as (effs & Hun).
  { eexists.
    eapply (unfolds_resume _ _ (env 1700000001000 "b") expert);
      [vm_compute; reflexivity|].
    eapply (unfolds_resume _ _ (env 1700000002000 "s") expert);
      [vm_compute; reflexivity|].
    apply unfolds_here. }
  exists effs. split; [exact Hun|].
  destruct (ask_pipeline_calls ask_event expert expert
              [CallOnAsk (ask_of_event ask_event)] effs
              (Some (AwaitOnAsk ask_event))
              [RBid (Resolved (Some the_bid));
               RInvoice (Resolved (mkInvoiceResponse "lnbc1" "H"))])
    as (_ & Hkind & _).
  - vm_compute. reflexivity.
  - exact Hun.
  - exact Hkind.
Defined.

Lemma answer_events_witness :
  ev_kind answer_event = 20178
  ∧ ev_tags answer_event = [["e"; "q1"]].
Proof.
  destruct (answer_events
              (AwaitFollowupInvoice (question_event "q1" ctx "H") 0
                 question1 answer1)
              (RInvoice (Resolved (mkInvoiceResponse "lnbc2" "H2")))
              (env 1700000012000 "a") (mem armed) (mem armed)
              [Publish ["wss://q1"; "wss://q2"] answer_event]
              (Some (AwaitAnswerPublish (question_event "q1" ctx "H") 0
                       question1 answer1 (Some "lnbc2") (Some "H2")
                       answer_event))
              ["wss://q1"; "wss://q2"] answer_event)
    as (qev & ref & q & a & inv & hash & ab & key & _ & _ & Ht & _ & _ & Hk
        & Htags & _).
  - exact I.
  - vm_compute. reflexivity.
  - apply list_elem_of_singleton. reflexivity.
  - injection Ht as <- _ _ _ _ _. split; [exact Hk | exact Htags].
Defined.

Lemma first_preimage_tag_decides_witness :
  handleQuestionEvent
    (mkEvent "q8" "client" 1700000100 NOSTR_EVENT_KIND_QUESTION
       [["e"; ctx]] "enc:why?" "sig")
    0 (mem armed)
  = (mem armed, [], None).
Proof.
  refine (proj1 (first_preimage_tag_decides _ 0 (mem armed) conversation
                   (mkQuestionPayload "why?" []) _ _) _).
  - vm_compute. reflexivity.
  - vm_compute. reflexivity.
  - constructor.
Defined.

Lemma question_consumes_conversation_witness :
  ∃ s',
    (onevent 2 (question_event "q1" "other" "H") (mem armed)).1.1 = s' ∧
    activeBids s' = delete ctx (activeBids (mem armed)) ∧
    fire_timer 0 s' = s'.
Proof.
  destruct (question_consumes_conversation (mem armed) ctx 0 2 0
              (question_event "q1" "other" "H") armed_is_armed)
    as (s' & ab & Hs' & _ & Hreg & _ & _ & _ & Hfire & _).
  exists s'. split; [exact Hs'|]. split; [exact Hreg | exact Hfire].
Defined.

Lemma bid_subscription_is_single_shot_witness :
  run (map (InEvent 2%nat)
         [question_event "q1b" ctx "H"; question_event "q1c" ctx "H"])
    (step (InEvent 2%nat (question_event "q1" ctx "H")) armed)
  = step (InEvent 2%nat (question_event "q1" ctx "H")) armed.
Proof.
  apply (bid_subscription_is_single_shot armed ctx 0 2 0).
  - exact armed_is_armed.
  - vm_compute. reflexivity.
Defined.

Lemma turn_without_followup_witness :
  activeBids
    (mem (run [InEvent 2%nat (question_event "q1" ctx "H");
               InResume 1%nat paid (env 1700000010000 "s");
               InResume 1%nat (RAnswer (Resolved answer_plain))
                 (env 1700000011000 "c");
               InResume 1%nat (RPublished [true; true])
                 (env 1700000012000 "s")] armed))
  = delete ctx (activeBids (mem armed)).
Proof.
  destruct (turn_without_followup armed ctx 0 2 0 conversation
              (question_event "q1" ctx "H") (mkLookupResponse (Some 123))
              answer_plain [true; true] (env 1700000010000 "s")
              (env 1700000011000 "c") (env 1700000012000 "s") "H"
              (ask_of_event ask_event) the_bid question1 (Some [])
              ["wss://q1"; "wss://q2"] plain_answer_event)
    as (_ & Hreg & _).
  - exact armed_is_armed.
  - vm_compute. reflexivity.
  - vm_compute. reflexivity.
  - exact Hreg.
Defined.

Lemma dispose_releases_everything_witness :
  activeBids (dispose (mem armed)).1 = ∅
  ∧ ∃ t',
      timers (dispose (mem armed)).1 !! 0%nat = Some t' ∧
      t_state t' ≠ Pending.
Proof.
  destruct (dispose_releases_everything (mem armed))
    as (_ & Hreg & _ & _ & _ & Hconv & _).
  split; [exact Hreg|].
  destruct (Hconv ctx 0%nat conversation) as [_ Htimer].
  - vm_compute. reflexivity.
  - vm_compute. reflexivity.
  - apply (Htimer (mkTimer 600000 2 ctx Pending)). vm_compute. reflexivity.
Defined.

Lemma handlers_outlive_dispose_witness :
  ∃ s',
    resume (AwaitBidPublish ask_event the_bid bid_event bid_payload_event "H")
      (RPublished [true]) (env 1700000003000 "s") (dispose expert).1
    = Some (s', [], None)
    ∧ activeBids s' = {[ctx := 0%nat]}.
Proof.
  destruct (handlers_outlive_dispose expert (env 1700000003000 "s") [true])
    as [Hbid _].
  destruct (Hbid ask_event the_bid bid_event bid_payload_event "H")
    as (s' & Hres & Hreg & _).
  - vm_compute. lia.
  - exists s'. split; [exact Hres | exact Hreg].
Defined.

Lemma question_cancels_expiry_witness :
  step (InTimer 0%nat)
    (run [InResume 1%nat paid (env 1700000010000 "s")]
       (step (InEvent 2%nat (question_event "q1" ctx "H")) armed))
  = run [InResume 1%nat paid (env 1700000010000 "s")]
      (step (InEvent 2%nat (question_event "q1" ctx "H")) armed).
Proof.
  apply (question_cancels_expiry armed ctx 0 2 0).
  exact armed_is_armed.
Defined.

Lemma only_bids_and_answers_are_published_witness :
  Publish ["wss://q1"; "wss://q2"] answer_event ∈ trace armed
  ∨ (ev_kind answer_event = 20175
     ∧ ["wss://q1"; "wss://q2"] = askRelays (mem armed))
  ∨ (ev_kind answer_event = 20178
     ∧ ["wss://q1"; "wss://q2"] = questionRelays (mem armed)).
Proof.
  apply (only_bids_and_answers_are_published first_turn armed).
  apply list_elem_of_lookup. exists 6%nat. vm_compute. reflexivity.
Defined.

Lemma registered_conversations_can_expire_witness :
  ∃ tid t,
    timers (mem armed) !! tid = Some t ∧ t_state t = Pending ∧ t_key t = ctx.
Proof.
  destruct (registered_conversations_can_expire
              [InStart (env 1700000000000 "s");
               InEvent 0%nat ask_event;
               InResume 0%nat (RBid (Resolved (Some the_bid)))
                 (env 1700000001000 "b");
               InResume 0%nat
                 (RInvoice (Resolved (mkInvoiceResponse "lnbc1" "H")))
                 (env 1700000002000 "s");
               InResume 0%nat (RPublished [true]) (env 1700000003000 "s")]
              expert ctx 0)
    as (tid & t & Ht & Hp & Hk & _).
  - repeat split.
  - vm_compute. reflexivity.
  - exists tid, t. split; [exact Ht|]. split; [exact Hp | exact Hk].
Defined.

End Scenarios.
